(** * QuickAdrLogcat: the streaming log ingestion pipeline

    A shallow embedding of
    - [src/workers/logParser.worker.js]: the line reassembler, the record
      parser ([logRegex], [parseLogLine]) and the batch scheduler
      ([sendBatch], [self.onmessage], [self.onclose]);
    - [src/components/LogcatViewer.jsx]: the worker-message handler of the
      viewer, its staging buffer, its update timer and the bounded [logs]
      state.

    JavaScript strings are sequences of UTF-16 code units; a regular
    expression without the [u] flag works on code units, so a string is a
    list of code units here.  Timers are entries of the event loop's timer
    table, created by [setTimeout] and removed by [clearTimeout] or when the
    loop runs their callback. *)

From Stdlib Require Import String Ascii.
From Stdlib Require Import NArith ZArith PArith Lia Bool List.
Import ListNotations.

(* ================================================================== *)
(** ** JavaScript strings and arrays *)

Module Js.

(** A string is the list of its code units, numbers below 65536. *)
Abbreviation code_unit := N (only parsing).
Abbreviation jsstring := (list N) (only parsing).

(** A literal of the source, as code units. *)
Definition js (s : string) : jsstring :=
  map N_of_ascii (list_ascii_of_string s).

Definition LF : code_unit := 10%N.

(** [s.split(sep)] for a separator of one code unit.  The result is never
    empty: [''.split(sep)] is [['']]. *)
Fixpoint split (sep : code_unit) (s : jsstring) : list jsstring :=
  match s with
  | [] => [[]]
  | c :: s' =>
      if N.eqb c sep then [] :: split sep s'
      else match split sep s' with
           | p :: ps => (c :: p) :: ps
           | [] => [[c]]
           end
  end.

(** [a.pop()]: the array without its last element, and that element
    ([undefined], here [None], on an empty array). *)
Fixpoint pop {A} (a : list A) : list A * option A :=
  match a with
  | [] => ([], None)
  | [x] => ([], Some x)
  | x :: a' => let (rest, l) := pop a' in (x :: rest, l)
  end.

(** [v || ''] for [v] a string or [undefined]: both [undefined] and the
    empty string are falsy. *)
Definition or_empty (v : option jsstring) : jsstring :=
  match v with
  | Some (c :: s) => c :: s
  | Some [] => []
  | None => []
  end.

(** [a.slice(start)]: a negative [start] counts from the end. *)
Definition slice_from {A} (start : Z) (a : list A) : list A :=
  let len := Z.of_nat (length a) in
  let k := if (start <? 0)%Z then Z.max (len + start) 0 else Z.min start len in
  skipn (Z.to_nat k) a.

(** [a.map(f).filter(Boolean)] for an [f] that returns an object or
    [null] and draws on a state [S] (here the random source). *)
Fixpoint map_filter {A B S} (f : A -> S -> option B * S) (a : list A) (g : S)
  : list B * S :=
  match a with
  | [] => ([], g)
  | x :: a' =>
      let (r, g1) := f x g in
      let (rs, g2) := map_filter f a' g1 in
      (match r with Some y => y :: rs | None => rs end, g2)
  end.

End Js.
Import Js.

(* ================================================================== *)
(** ** The event loop's timers *)

Module Timers.

(** The handle returned by [setTimeout] is an integer greater than zero,
    so [if (timeoutId)] tests exactly "is not [null]". *)
Definition handle := positive.

(** The active timers, with the time (in ms) at which each is due. *)
Record table := { next : handle; active : list (handle * Z) }.

Definition empty : table := {| next := 1%positive; active := [] |}.

Definition setTimeout (delay now : Z) (t : table) : handle * table :=
  (next t,
   {| next := Pos.succ (next t);
      active := active t ++ [(next t, (now + delay)%Z)] |}).

Definition remove (h : handle) (l : list (handle * Z)) : list (handle * Z) :=
  filter (fun e => negb (Pos.eqb (fst e) h)) l.

Definition clearTimeout (h : handle) (t : table) : table :=
  {| next := next t; active := remove h (active t) |}.

(** The due time of an active timer. *)
Fixpoint due (h : handle) (l : list (handle * Z)) : option Z :=
  match l with
  | [] => None
  | (h', d) :: l' => if Pos.eqb h' h then Some d else due h l'
  end.

End Timers.

(* ================================================================== *)
(** ** Regular expressions, as the engine runs them

    A backtracking matcher in continuation-passing style: alternatives are
    tried in the priority order of ECMAScript (a greedy quantifier takes the
    longest repetition first, a lazy one the shortest), and the first
    success is the result.  Quantifiers range over one-code-unit atoms,
    which is all [logRegex] uses. *)

Module Regex.

Definition charclass := code_unit -> bool.

Inductive regex : Type :=
| Class (p : charclass)               (* \d  \s  .  [...]  a literal *)
| Times (n : nat) (p : charclass)     (* p{n} *)
| Plus (greedy : bool) (p : charclass)  (* p+  and  p+? *)
| Seq (r1 r2 : regex)
| Group (r : regex).                  (* ( r ) *)

Definition in_range (lo hi c : N) : bool := (N.leb lo c && N.leb c hi)%bool.

(** [\d] *)
Definition digit : charclass := in_range 48 57.

(** [\s]: WhiteSpace and LineTerminator of ECMAScript. *)
Definition space : charclass := fun c =>
  (in_range 9 13 c || N.eqb c 32 || N.eqb c 160 || N.eqb c 5760
   || in_range 8192 8202 c || N.eqb c 8232 || N.eqb c 8233
   || N.eqb c 8239 || N.eqb c 8287 || N.eqb c 12288 || N.eqb c 65279)%bool.

(** [.] without the [s] flag: anything but a line terminator. *)
Definition dot : charclass := fun c =>
  negb (N.eqb c 10 || N.eqb c 13 || N.eqb c 8232 || N.eqb c 8233)%bool.

Definition lit (a : ascii) : charclass := N.eqb (N_of_ascii a).
Definition one_of (s : string) : charclass := fun c =>
  existsb (N.eqb c) (js s).
Definition none_of (s : string) : charclass := fun c => negb (one_of s c).

Section Run.
Context {R : Type}.

Fixpoint times (n : nat) (p : charclass) (s : jsstring)
         (k : jsstring -> option R) : option R :=
  match n with
  | O => k s
  | S n' =>
      match s with
      | c :: s' => if p c then times n' p s' k else None
      | [] => None
      end
  end.

Fixpoint plus_greedy (p : charclass) (s : jsstring)
         (k : jsstring -> option R) : option R :=
  match s with
  | c :: s' =>
      if p c then
        match plus_greedy p s' k with
        | Some r => Some r
        | None => k s'
        end
      else None
  | [] => None
  end.

Fixpoint plus_lazy (p : charclass) (s : jsstring)
         (k : jsstring -> option R) : option R :=
  match s with
  | c :: s' =>
      if p c then
        match k s' with
        | Some r => Some r
        | None => plus_lazy p s' k
        end
      else None
  | [] => None
  end.

(** [run r s caps k]: match [r] at the head of [s]; [caps] are the
    groups closed so far, in the order of their parentheses (the groups
    of [logRegex] are not nested); [k] is the rest of the pattern. *)
Fixpoint run (r : regex) (s : jsstring) (caps : list jsstring)
         (k : jsstring -> list jsstring -> option R) : option R :=
  match r with
  | Class p =>
      match s with
      | c :: s' => if p c then k s' caps else None
      | [] => None
      end
  | Times n p => times n p s (fun s' => k s' caps)
  | Plus true p => plus_greedy p s (fun s' => k s' caps)
  | Plus false p => plus_lazy p s (fun s' => k s' caps)
  | Seq r1 r2 => run r1 s caps (fun s1 caps1 => run r2 s1 caps1 k)
  | Group r1 =>
      run r1 s caps (fun s' caps' =>
        k s' (caps' ++ [firstn (length s - length s') s]))
  end.
End Run.

(** The match array at one start position: the matched text, then the
    groups. *)
Definition match_at (r : regex) (s : jsstring) : option (list jsstring) :=
  run r s [] (fun rest caps =>
    Some (firstn (length s - length rest) s :: caps)).

(** [s.match(r)] for [r] without the [g] flag: the match at the first
    start position that has one, or [null]. *)
Fixpoint exec (r : regex) (s : jsstring) : option (list jsstring) :=
  match match_at r s with
  | Some m => Some m
  | None =>
      match s with
      | [] => None
      | _ :: s' => exec r s'
      end
  end.

End Regex.
Import Regex.

Declare Scope regex_scope.
Delimit Scope regex_scope with re.
Infix ";;" := Seq (at level 61, right associativity) : regex_scope.

(* ================================================================== *)
(** ** The record parser *)

(** [/(\d{2}-\d{2}\s\d{2}:\d{2}:\d{2}\.\d{3})\s+(\d+)\s+(\d+)\s+([VDIWEAF])\s+([^:]+?):\s+(.+)/] *)
Definition logRegex : regex :=
  (Group (Times 2 digit ;; Class (lit "-") ;; Times 2 digit ;; Class space ;;
          Times 2 digit ;; Class (lit ":") ;; Times 2 digit ;; Class (lit ":") ;;
          Times 2 digit ;; Class (lit ".") ;; Times 3 digit) ;;
   Plus true space ;; Group (Plus true digit) ;;
   Plus true space ;; Group (Plus true digit) ;;
   Plus true space ;; Group (Class (one_of "VDIWEAF")) ;;
   Plus true space ;; Group (Plus false (none_of ":")) ;;
   Class (lit ":") ;; Plus true space ;; Group (Plus true dot))%re.

Record LogRecord := {
  timestamp : jsstring;
  pid : jsstring;
  tid : jsstring;
  level : jsstring;
  tag : jsstring;
  message : jsstring;
  key : jsstring
}.

(** The source of [Math.random()]: [draw n] is the text that a template
    literal prints for the result of the [n]-th call of the session, and
    [calls] counts the calls made so far. *)
Record random := { draw : nat -> jsstring; calls : nat }.

Definition Math_random (g : random) : jsstring * random :=
  (draw g (calls g), {| draw := draw g; calls := S (calls g) |}).

Definition dash : jsstring := js "-".

(** [parseLogLine(line)].  The array pattern
    [[, timestamp, pid, tid, level, tag, message]] reads the elements 1 to 6
    of the match array. *)
Definition parseLogLine (line : jsstring) (g : random)
  : option LogRecord * random :=
  match exec logRegex line with
  | Some m =>
      let timestamp := nth 1 m [] in
      let pid := nth 2 m [] in
      let tid := nth 3 m [] in
      let level := nth 4 m [] in
      let tag := nth 5 m [] in
      let message := nth 6 m [] in
      let (r, g') := Math_random g in
      (Some {| timestamp := timestamp; pid := pid; tid := tid;
               level := level; tag := tag; message := message;
               key := timestamp ++ dash ++ pid ++ dash ++ tid ++ dash
                      ++ tag ++ dash ++ r |},
       g')
  | None => (None, g)
  end.

(* ================================================================== *)
(** ** The worker: line reassembler and batch scheduler *)

Module Worker.

Definition BATCH_INTERVAL : Z := 150.
Definition BATCH_SIZE : nat := 200.

(** The three module variables of the worker, and the part of its
    environment the handlers act on: the timer table, the payloads of the
    ['logs'] messages posted so far (oldest first) and the random source. *)
Record state := {
  buffer : jsstring;
  parsedLogsBuffer : list LogRecord;
  timeoutId : option Timers.handle;
  timers : Timers.table;
  posted : list (list LogRecord);
  rng : random
}.

Definition init (g : random) : state :=
  {| buffer := []; parsedLogsBuffer := []; timeoutId := None;
     timers := Timers.empty; posted := []; rng := g |}.

Definition sendBatch (st : state) : state :=
  let st1 :=
    if 0 <? length (parsedLogsBuffer st) then
      {| buffer := buffer st; parsedLogsBuffer := [];
         timeoutId := timeoutId st; timers := timers st;
         posted := posted st ++ [parsedLogsBuffer st]; rng := rng st |}
    else st in
  match timeoutId st1 with
  | Some h =>
      {| buffer := buffer st1; parsedLogsBuffer := parsedLogsBuffer st1;
         timeoutId := None; timers := Timers.clearTimeout h (timers st1);
         posted := posted st1; rng := rng st1 |}
  | None => st1
  end.

(** Lines 43 to 45, the line reassembler: the complete lines of
    [buffer + data] and the new partial line. *)
Definition reassemble (buffer data : jsstring) : list jsstring * jsstring :=
  let (lines, last) := pop (split LF (buffer ++ data)) in
  (lines, or_empty last).

(** Lines 52 to 61, the scheduler's submit: [newlyParsed] are the records
    of one chunk. *)
Definition submit (newlyParsed : list LogRecord) (now : Z) (st : state)
  : state :=
  if 0 <? length newlyParsed then
    let st1 :=
      {| buffer := buffer st;
         parsedLogsBuffer := parsedLogsBuffer st ++ newlyParsed;
         timeoutId := timeoutId st; timers := timers st;
         posted := posted st; rng := rng st |} in
    if BATCH_SIZE <=? length (parsedLogsBuffer st1) then sendBatch st1
    else
      match timeoutId st1 with
      | None =>
          let (h, t) := Timers.setTimeout BATCH_INTERVAL now (timers st1) in
          {| buffer := buffer st1; parsedLogsBuffer := parsedLogsBuffer st1;
             timeoutId := Some h; timers := t;
             posted := posted st1; rng := rng st1 |}
      | Some _ => st1
      end
  else st.

(** [event.data] of a message to the worker. *)
Inductive message :=
| Process (payload : jsstring)
| Clear
| Other.

(** [self.onmessage], run at time [now]. *)
Definition onmessage (m : message) (now : Z) (st : state) : state :=
  match m with
  | Process data =>
      let (lines, rest) := reassemble (buffer st) data in
      let st1 :=
        {| buffer := rest; parsedLogsBuffer := parsedLogsBuffer st;
           timeoutId := timeoutId st; timers := timers st;
           posted := posted st; rng := rng st |} in
      if 0 <? length lines then
        let (newlyParsed, g) := map_filter parseLogLine lines (rng st1) in
        submit newlyParsed now
          {| buffer := buffer st1; parsedLogsBuffer := parsedLogsBuffer st1;
             timeoutId := timeoutId st1; timers := timers st1;
             posted := posted st1; rng := g |}
      else st1
  | Clear =>
      {| buffer := []; parsedLogsBuffer := [];
         timeoutId := None;
         timers := match timeoutId st with
                   | Some h => Timers.clearTimeout h (timers st)
                   | None => timers st
                   end;
         posted := posted st; rng := rng st |}
  | Other => st
  end.

(** The event loop runs the callback of timer [h], [sendBatch]; the timer
    leaves the table as it fires. *)
Definition ontimeout (h : Timers.handle) (st : state) : state :=
  sendBatch
    {| buffer := buffer st; parsedLogsBuffer := parsedLogsBuffer st;
       timeoutId := timeoutId st;
       timers := Timers.clearTimeout h (timers st);
       posted := posted st; rng := rng st |}.

Definition onclose (st : state) : state := sendBatch st.

(** One turn of the worker's event loop at time [now].  A timer fires only
    if it is active and due. *)
Inductive step (now : Z) : state -> state -> Prop :=
| step_message m st : step now st (onmessage m now st)
| step_timeout h d st :
    Timers.due h (Timers.active (timers st)) = Some d -> (d <= now)%Z ->
    step now st (ontimeout h st)
| step_close st : step now st (onclose st).

Inductive reachable (g : random) : state -> Prop :=
| reach_init : reachable g (init g)
| reach_step now st st' :
    reachable g st -> step now st st' -> reachable g st'.

(** The worker's timer table holds the timer [timeoutId] names and no
    other. *)
Definition timer_inv (st : state) : Prop :=
  match timeoutId st with
  | Some h =>
      (exists d, Timers.active (timers st) = [(h, d)]) /\
      (h < Timers.next (timers st))%positive
  | None => Timers.active (timers st) = []
  end.

(** The events of the worker as data, and a run of the event loop over a
    list of them, each with the time of its turn.  A timer that is not
    active, or not yet due, does not fire. *)
Inductive event :=
| Message (m : message)
| Timeout (h : Timers.handle)
| Close.

Definition handle_event (e : event) (now : Z) (st : state) : state :=
  match e with
  | Message m => onmessage m now st
  | Timeout h =>
      match Timers.due h (Timers.active (timers st)) with
      | Some d => if (d <=? now)%Z then ontimeout h st else st
      | None => st
      end
  | Close => onclose st
  end.

Fixpoint run_events (evs : list (Z * event)) (st : state) : state :=
  match evs with
  | [] => st
  | (now, e) :: evs' => run_events evs' (handle_event e now st)
  end.

(** The worker [st] with the messages [p] posted before its own. *)
Definition with_posted (p : list (list LogRecord)) (st : state) : state :=
  {| buffer := buffer st; parsedLogsBuffer := parsedLogsBuffer st;
     timeoutId := timeoutId st; timers := timers st;
     posted := p ++ posted st; rng := rng st |}.

(** A worker that holds no data: empty partial line, empty pending batch,
    no timer, nothing posted yet. *)
Definition blank (next : Timers.handle) (g : random) : state :=
  {| buffer := []; parsedLogsBuffer := []; timeoutId := None;
     timers := {| Timers.next := next; Timers.active := [] |};
     posted := []; rng := g |}.

End Worker.

(* ================================================================== *)
(** ** The viewer: staging buffer, update timer and bounded view *)

Module Viewer.

Definition LOG_UPDATE_INTERVAL : Z := 300.
Definition MAX_LOGS : Z := 1000.

(** [logBuffer.current], [logUpdateTimeoutRef.current], the [logs] state
    of the component, and the timer table of the page. *)
Record state := {
  logBuffer : list LogRecord;
  logUpdateTimeoutRef : option Timers.handle;
  logs : list LogRecord;
  timers : Timers.table
}.

Definition init : state :=
  {| logBuffer := []; logUpdateTimeoutRef := None; logs := [];
     timers := Timers.empty |}.

(** The updater passed to [setLogs] at lines 114 to 117. *)
Definition merge (logsToAdd prevLogs : list LogRecord) : list LogRecord :=
  let updatedLogs := prevLogs ++ logsToAdd in
  slice_from (- MAX_LOGS) updatedLogs.

(** [event.data] of a message from the worker. *)
Inductive message :=
| Logs (payload : list LogRecord)
| Other.

(** [workerRef.current.onmessage], lines 97 to 122, run at time [now]. *)
Definition onmessage (m : message) (now : Z) (st : state) : state :=
  match m with
  | Logs parsedLogs =>
      if 0 <? length parsedLogs then
        let buf := logBuffer st ++ parsedLogs in
        let t1 := match logUpdateTimeoutRef st with
                  | Some h => Timers.clearTimeout h (timers st)
                  | None => timers st
                  end in
        let (h', t2) := Timers.setTimeout LOG_UPDATE_INTERVAL now t1 in
        {| logBuffer := buf; logUpdateTimeoutRef := Some h';
           logs := logs st; timers := t2 |}
      else st
  | Other => st
  end.

(** The callback of the update timer, lines 110 to 119; the timer [h]
    leaves the table as it fires. *)
Definition ontimeout (h : Timers.handle) (st : state) : state :=
  let logsToAdd := logBuffer st in
  {| logBuffer := [];
     logUpdateTimeoutRef := None;
     logs := merge logsToAdd (logs st);
     timers := Timers.clearTimeout h (timers st) |}.

(** The part of [clearLogs] and [stopLogcat] that acts on this state:
    empty the staging buffer and cancel the update timer; [clearLogs]
    also sets [logs] to the empty array. *)
Definition reset (clear_view : bool) (st : state) : state :=
  {| logBuffer := [];
     logUpdateTimeoutRef := None;
     logs := if clear_view then [] else logs st;
     timers := match logUpdateTimeoutRef st with
               | Some h => Timers.clearTimeout h (timers st)
               | None => timers st
               end |}.

Inductive step (now : Z) : state -> state -> Prop :=
| step_message m st : step now st (onmessage m now st)
| step_timeout h d st :
    Timers.due h (Timers.active (timers st)) = Some d -> (d <= now)%Z ->
    step now st (ontimeout h st)
| step_reset b st : step now st (reset b st).

Inductive reachable : state -> Prop :=
| reach_init : reachable init
| reach_step now st st' : reachable st -> step now st st' -> reachable st'.

Definition timer_inv (st : state) : Prop :=
  match logUpdateTimeoutRef st with
  | Some h =>
      (exists d, Timers.active (timers st) = [(h, d)]) /\
      (h < Timers.next (timers st))%positive
  | None => Timers.active (timers st) = []
  end.

(** The view after a sequence of merges, oldest batch first. *)
Definition merge_all (batches : list (list LogRecord))
           (view : list LogRecord) : list LogRecord :=
  fold_left (fun v b => merge b v) batches view.

End Viewer.

(* ================================================================== *)
(** ** Sample data *)

Definition sample_line : jsstring :=
  js "10-01 12:00:00.000 123 456 I MyTag: hello".

Definition const_random (r : string) : random :=
  {| draw := fun _ => js r; calls := 0 |}.

(** A source whose first draw prints as [0.25] and every later one as
    [0.75]. *)
Definition two_draws : random :=
  {| draw := fun n => match n with O => js "0.25" | S _ => js "0.75" end;
     calls := 0 |}.

(** The record of [sample_line] when [Math.random()] prints as [0.5]. *)
Definition sample_record : LogRecord :=
  {| timestamp := js "10-01 12:00:00.000"; pid := js "123"; tid := js "456";
     level := js "I"; tag := js "MyTag"; message := js "hello";
     key := js "10-01 12:00:00.000-123-456-MyTag-0.5" |}.

(** A burst of two batches at the viewer: the first at time 0, the second
    at time 100, before the update timer of the first is due. *)
Definition burst_first : Viewer.state :=
  Viewer.onmessage (Viewer.Logs [sample_record]) 0 Viewer.init.

Definition burst_second : Viewer.state :=
  Viewer.onmessage (Viewer.Logs [sample_record]) 100 burst_first.

(** The last [n] elements of a list. *)
Definition lastn {A} (n : nat) (l : list A) : list A :=
  skipn (length l - n) l.

(** The reassembler over a sequence of chunks: all the complete lines
    emitted, in order, and the partial line left at the end. *)
Fixpoint ingest_all (chunks : list jsstring) (buffer : jsstring)
  : list jsstring * jsstring :=
  match chunks with
  | [] => ([], buffer)
  | c :: cs =>
      let (lines, b) := Worker.reassemble buffer c in
      let (more, b') := ingest_all cs b in
      (lines ++ more, b')
  end.

(** The text whose lines are [lines], each one terminated by the
    separator. *)
Definition unlines (lines : list jsstring) : jsstring :=
  concat (map (fun l => l ++ [LF]) lines).

Definition no_LF (s : jsstring) : Prop := ~ In LF s.

(* ================================================================== *)
(** ** The spread call of the handler and the engine's argument limit *)

Module Spread.

Section Limit.

(** The most arguments a call can take: [f(...a)] with more elements than
    this throws a [RangeError].  The number depends on the engine and on
    the stack it has left. *)
Variable max_arguments : nat.



End Limit.

End Spread.

(* ================================================================== *)
(** ** Runs of the two event loops *)

Module Pipeline.

(** The chunks a run of the worker receives, in order. *)
Fixpoint worker_chunks (evs : list (Z * Worker.event)) : list jsstring :=
  match evs with
  | [] => []
  | (_, Worker.Message (Worker.Process data)) :: evs' =>
      data :: worker_chunks evs'
  | _ :: evs' => worker_chunks evs'
  end.

(** No ['clear'] message in the run. *)
Fixpoint no_clear (evs : list (Z * Worker.event)) : bool :=
  match evs with
  | [] => true
  | (_, Worker.Message Worker.Clear) :: _ => false
  | _ :: evs' => no_clear evs'
  end.

(** What the worker has handed on or still holds: the batches posted, in
    order, then the pending records. *)
Definition delivered (st : Worker.state) : list LogRecord :=
  concat (Worker.posted st) ++ Worker.parsedLogsBuffer st.

(** The scheduler's invariant: a timer is armed exactly when records are
    pending, fewer than [BATCH_SIZE] are pending, no posted batch is
    empty. *)
Definition nonempty_batches (st : Worker.state) : Prop :=
  Forall (fun b : list LogRecord => b <> []) (Worker.posted st).

Definition pending_inv (st : Worker.state) : Prop :=
  (Worker.timeoutId st = None <-> Worker.parsedLogsBuffer st = []) /\
  length (Worker.parsedLogsBuffer st) < Worker.BATCH_SIZE /\
  nonempty_batches st.

(** The events of the viewer as data: a message of the worker, the update
    timer, and the reset of [clearLogs] (with [true]) or [stopLogcat]. *)
Inductive viewer_event :=
| VMessage (m : Viewer.message)
| VTimeout (h : Timers.handle)
| VReset (clear_view : bool).

Definition viewer_handle (e : viewer_event) (now : Z) (st : Viewer.state)
  : Viewer.state :=
  match e with
  | VMessage m => Viewer.onmessage m now st
  | VTimeout h =>
      match Timers.due h (Timers.active (Viewer.timers st)) with
      | Some d => if (d <=? now)%Z then Viewer.ontimeout h st else st
      | None => st
      end
  | VReset b => Viewer.reset b st
  end.

Fixpoint viewer_run (evs : list (Z * viewer_event)) (st : Viewer.state)
  : Viewer.state :=
  match evs with
  | [] => st
  | (now, e) :: evs' => viewer_run evs' (viewer_handle e now st)
  end.

(** The batches a run of the viewer receives, in order. *)
Fixpoint viewer_payloads (evs : list (Z * viewer_event))
  : list (list LogRecord) :=
  match evs with
  | [] => []
  | (_, VMessage (Viewer.Logs p)) :: evs' => p :: viewer_payloads evs'
  | _ :: evs' => viewer_payloads evs'
  end.

Fixpoint no_reset (evs : list (Z * viewer_event)) : bool :=
  match evs with
  | [] => true
  | (_, VReset _) :: _ => false
  | _ :: evs' => no_reset evs'
  end.

(** What the viewer has shown or staged, against what it received: the
    view is the last 1000 of the records merged so far, and the merged
    ones followed by the staged ones are the received ones. *)
Definition accounts (st : Viewer.state) (received : list LogRecord) : Prop :=
  exists merged,
    Viewer.logs st = lastn 1000 merged /\
    merged ++ Viewer.logBuffer st = received.

(** The complete lines the worker has seen over a run: the lines of the
    input since the start or the last clear, cut at every clear (what a
    clear finds in the partial line is thrown away, so it is no line).
    [cur] holds the chunks received since the last clear. *)
Fixpoint lines_seen (cur : list jsstring) (evs : list (Z * Worker.event))
  : list jsstring :=
  match evs with
  | [] => fst (Worker.reassemble [] (concat cur))
  | (_, Worker.Message (Worker.Process data)) :: evs' =>
      lines_seen (cur ++ [data]) evs'
  | (_, Worker.Message Worker.Clear) :: evs' =>
      fst (Worker.reassemble [] (concat cur)) ++ lines_seen [] evs'
  | _ :: evs' => lines_seen cur evs'
  end.

(** The chunks received since the last clear, at the end of the run. *)
Fixpoint open_chunks (cur : list jsstring) (evs : list (Z * Worker.event))
  : list jsstring :=
  match evs with
  | [] => cur
  | (_, Worker.Message (Worker.Process data)) :: evs' =>
      open_chunks (cur ++ [data]) evs'
  | (_, Worker.Message Worker.Clear) :: evs' => open_chunks [] evs'
  | _ :: evs' => open_chunks cur evs'
  end.

(** The input of a run cut at its clears: the text received before the
    first clear, between two clears, and after the last. *)
Fixpoint segments (cur : list jsstring) (evs : list (Z * Worker.event))
  : list jsstring :=
  match evs with
  | [] => [concat cur]
  | (_, Worker.Message (Worker.Process data)) :: evs' =>
      segments (cur ++ [data]) evs'
  | (_, Worker.Message Worker.Clear) :: evs' =>
      concat cur :: segments [] evs'
  | _ :: evs' => segments cur evs'
  end.

(** [ls] are the complete lines of the text [seg]: [seg] is each of them
    followed by a line feed, then an end without line feed. *)
Definition complete_lines (seg : jsstring) (ls : list jsstring) : Prop :=
  exists rest,
    seg = unlines ls ++ rest /\ Forall no_LF ls /\ no_LF rest.

(** [r] is the record [parseLogLine] makes of one of [lines]. *)
Definition parsed_from (lines : list jsstring) (r : LogRecord) : Prop :=
  exists line g0 g1,
    In line lines /\ parseLogLine line g0 = (Some r, g1).

(** A run with a clear in the middle: a complete line and the start of a
    second, a clear, then the rest of the second line. *)
Definition cleared_run : list (Z * Worker.event) :=
  [(0%Z, Worker.Message
           (Worker.Process (sample_line ++ [LF] ++ js "10-01 12:00:00.000 1")));
   (5%Z, Worker.Message Worker.Clear);
   (9%Z, Worker.Message (Worker.Process (js "23 456 I MyTag: hello" ++ [LF])))].

(** The viewer's side of [sample_run]: the batch arrives, then the update
    timer fires. *)
Definition sample_arrival : list (Z * viewer_event) :=
  [(160%Z, VMessage (Viewer.Logs [sample_record]));
   (460%Z, VTimeout 1%positive)].

(** A run of the worker: a line cut in two chunks, then the timer. *)
Definition sample_run : list (Z * Worker.event) :=
  [(0%Z, Worker.Message (Worker.Process (js "10-01 12:00:00.000 123 4")));
   (5%Z, Worker.Message
           (Worker.Process (js "56 I MyTag: hello" ++ [LF] ++ js "10-")));
   (155%Z, Worker.Timeout 1%positive)].

(** A run of the viewer: two batches 100 ms apart, then the timer of the
    second. *)
Definition sample_view_run (r1 r2 : LogRecord)
  : list (Z * viewer_event) :=
  [(0%Z, VMessage (Viewer.Logs [r1]));
   (100%Z, VMessage (Viewer.Logs [r2]));
   (400%Z, VTimeout 2%positive)].

End Pipeline.

(** Sample output of [adb devices], with Windows line ends on the first
    device line. *)
Definition sample_entries : list (jsstring * jsstring * jsstring) :=
  [(js "emulator-5554", js "device", [13%N]);
   (js "0a38c1f2", js "unauthorized", []);
   (js "R58M", js "device", [])].

(* ================================================================== *)
(** ** The language of a regular expression

    [matches r w caps]: the text [w] is in the language of [r], and
    matching it closes the groups [caps], in the order of their
    parentheses.  The matcher of [Regex] only ever returns such
    matches. *)

Inductive matches : regex -> jsstring -> list jsstring -> Prop :=
| m_class p c : p c = true -> matches (Class p) [c] []
| m_times n p w :
    length w = n -> forallb p w = true -> matches (Times n p) w []
| m_plus b p w :
    w <> [] -> forallb p w = true -> matches (Plus b p) w []
| m_seq r1 r2 w1 w2 c1 c2 :
    matches r1 w1 c1 -> matches r2 w2 c2 ->
    matches (Seq r1 r2) (w1 ++ w2) (c1 ++ c2)
| m_group r w c : matches r w c -> matches (Group r) w (c ++ [w]).

(** A non-empty run of white space. *)
Definition blanks (ws : jsstring) : Prop :=
  ws <> [] /\ forallb space ws = true.

(** [n] digits. *)
Definition digits (n : nat) (w : jsstring) : Prop :=
  length w = n /\ forallb digit w = true.

(** The text [rest] does not start with a code unit of the class [p]: a
    run of [p] stops in front of it. *)
Definition stops (p : charclass) (rest : jsstring) : Prop :=
  match rest with
  | [] => True
  | c :: _ => p c = false
  end.

(* ================================================================== *)
(** ** More string and array primitives *)

Module JsMore.

Definition SP : code_unit := 32%N.
Definition TAB : code_unit := 9%N.

(** [a === b] on strings. *)
Fixpoint str_eqb (a b : jsstring) : bool :=
  match a, b with
  | [], [] => true
  | x :: a', y :: b' => (N.eqb x y && str_eqb a' b')%bool
  | _, _ => false
  end.

(** A string as a condition: the empty string is falsy. *)
Definition truthy (s : jsstring) : bool :=
  match s with [] => false | _ :: _ => true end.

(** [s.startsWith(sub)] and [s.includes(sub)]. *)
Fixpoint starts_with (s sub : jsstring) : bool :=
  match sub, s with
  | [], _ => true
  | y :: sub', x :: s' => (N.eqb x y && starts_with s' sub')%bool
  | _ :: _, [] => false
  end.

Fixpoint includes (s sub : jsstring) : bool :=
  (starts_with s sub ||
   match s with
   | [] => false
   | _ :: s' => includes s' sub
   end)%bool.

(** [a.indexOf(x)]: the first index of [x], or -1. *)
Fixpoint index_from (i : Z) (a : list jsstring) (x : jsstring) : Z :=
  match a with
  | [] => (-1)%Z
  | y :: a' => if str_eqb y x then i else index_from (i + 1)%Z a' x
  end.

Definition indexOf (a : list jsstring) (x : jsstring) : Z := index_from 0 a x.

(** [a.join(sep)] for a separator of one code unit. *)
Fixpoint join (sep : code_unit) (a : list jsstring) : jsstring :=
  match a with
  | [] => []
  | [x] => x
  | x :: a' => x ++ sep :: join sep a'
  end.

(** [s.trim()]: white space and line terminators, the class of [\s], are
    taken off both ends. *)
Fixpoint drop_space (s : jsstring) : jsstring :=
  match s with
  | c :: s' => if space c then drop_space s' else s
  | [] => []
  end.

Definition trim (s : jsstring) : jsstring :=
  rev (drop_space (rev (drop_space s))).

(** [a.filter((_, i) => keep(i))], counting from [i]. *)
Fixpoint filter_index {A} (keep : nat -> bool) (i : nat) (a : list A)
  : list A :=
  match a with
  | [] => []
  | x :: a' =>
      if keep i then x :: filter_index keep (S i) a'
      else filter_index keep (S i) a'
  end.

(** [a.map(f).filter(Boolean)] for an [f] without effects. *)
Fixpoint map_some {A B} (f : A -> option B) (a : list A) : list B :=
  match a with
  | [] => []
  | x :: a' =>
      match f x with
      | Some y => y :: map_some f a'
      | None => map_some f a'
      end
  end.

End JsMore.
Import JsMore.

(** A tag filter of the viewer, [{ tag, level }]. *)
Record Filter := { ftag : jsstring; flevel : jsstring }.

(* ================================================================== *)
(** ** The viewer: filters, displayed rows and columns *)

Module Display.

(** [Object.keys(LogLevels)], in the order of the literal. *)
Definition LogLevels_keys : list jsstring :=
  [js "V"; js "D"; js "I"; js "W"; js "E"; js "F"].

(** The names every object literal inherits from [Object.prototype];
    [LogLevels[x]] is truthy for them as it is for the keys. *)
Definition Object_prototype_names : list jsstring :=
  [js "constructor"; js "hasOwnProperty"; js "isPrototypeOf";
   js "propertyIsEnumerable"; js "toLocaleString"; js "toString";
   js "valueOf"; js "__proto__"; js "__defineGetter__";
   js "__defineSetter__"; js "__lookupGetter__"; js "__lookupSetter__"].

Definition LogLevels_has (x : jsstring) : bool :=
  (existsb (str_eqb x) LogLevels_keys
   || existsb (str_eqb x) Object_prototype_names)%bool.

(** The callback of [filters.some], lines 451 to 456. *)
Definition filter_matches (log : LogRecord) (filter : Filter) : bool :=
  let tagMatch :=
    (negb (truthy (ftag filter)) || includes (tag log) (ftag filter))%bool in
  let levelMatch :=
    (LogLevels_has (level log) && LogLevels_has (flevel filter)
     && (indexOf LogLevels_keys (level log)
         <=? indexOf LogLevels_keys (flevel filter))%Z)%bool in
  (tagMatch && levelMatch)%bool.

Section Rows.

(** [String.prototype.toLowerCase], left open: nothing below depends on
    how it maps code units. *)
Context (toLowerCase : jsstring -> jsstring).

(** The callback of [logs.filter], lines 440 to 460. *)
Definition shown (searchKeyword : jsstring) (frontendFiltering : bool)
           (filters : list Filter) (log : LogRecord) : bool :=
  if (truthy searchKeyword
      && negb (let keyword := toLowerCase searchKeyword in
               includes (toLowerCase (message log)) keyword
               || includes (toLowerCase (tag log)) keyword))%bool
  then false
  else if (frontendFiltering && (0 <? length filters))%bool
       then existsb (filter_matches log) filters
       else true.

Definition filteredLogs (searchKeyword : jsstring) (frontendFiltering : bool)
           (filters : list Filter) (logs : list LogRecord) : list LogRecord :=
  filter (shown searchKeyword frontendFiltering filters) logs.

End Rows.

(** [handleRowClick]: the text copied for a row. *)
Definition logText (record : LogRecord) : jsstring :=
  timestamp record ++ js " " ++ pid record ++ js " " ++ tid record ++ js " "
  ++ level record ++ js " " ++ tag record ++ js ": " ++ message record.

(** The [filters] and [newFilter] states with the handlers that set them;
    restarting logcat, which [addFilter] and [removeFilter] also do, is
    outside this state. *)
Record filter_state := { filters : list Filter; newFilter : Filter }.

Definition blank_filter : Filter := {| ftag := []; flevel := js "V" |}.

Definition filter_init : filter_state :=
  {| filters := []; newFilter := blank_filter |}.

(** The tag input and the level select, lines 601 and 607. *)
Definition setTag (value : jsstring) (st : filter_state) : filter_state :=
  {| filters := filters st;
     newFilter := {| ftag := value; flevel := flevel (newFilter st) |} |}.

Definition setLevel (value : jsstring) (st : filter_state) : filter_state :=
  {| filters := filters st;
     newFilter := {| ftag := ftag (newFilter st); flevel := value |} |}.

Definition addFilter (st : filter_state) : filter_state :=
  if truthy (ftag (newFilter st)) then
    {| filters := filters st ++ [newFilter st]; newFilter := blank_filter |}
  else st.

Definition removeFilter (index : nat) (st : filter_state) : filter_state :=
  {| filters := filter_index (fun i => negb (Nat.eqb i index)) 0 (filters st);
     newFilter := newFilter st |}.

(** What the user can do to the filters; the select offers the keys of
    [LogLevels] only. *)
Inductive filter_step : filter_state -> filter_state -> Prop :=
| fs_tag v st : filter_step st (setTag v st)
| fs_level v st : In v LogLevels_keys -> filter_step st (setLevel v st)
| fs_add st : filter_step st (addFilter st)
| fs_remove i st : filter_step st (removeFilter i st).

Inductive filter_reachable : filter_state -> Prop :=
| fr_init : filter_reachable filter_init
| fr_step st st' :
    filter_reachable st -> filter_step st st' -> filter_reachable st'.

(** A filter as the handlers make them: a tag that is not empty and a
    level of the select. *)
Definition filter_ok (f : Filter) : Prop :=
  ftag f <> [] /\ In (flevel f) LogLevels_keys.

(** A record whose row text is in the form [parseLogLine] reads back: the
    fields are as the grammar wants them, and neither the tag nor the
    message starts with white space. *)
Definition canonical (r : LogRecord) : Prop :=
  (exists MM DD sp hh mm ss mmm,
     timestamp r = MM ++ js "-" ++ DD ++ [sp] ++ hh ++ js ":" ++ mm
                   ++ js ":" ++ ss ++ js "." ++ mmm /\
     digits 2 MM /\ digits 2 DD /\ space sp = true /\ digits 2 hh /\
     digits 2 mm /\ digits 2 ss /\ digits 3 mmm) /\
  (pid r <> [] /\ forallb digit (pid r) = true) /\
  (tid r <> [] /\ forallb digit (tid r) = true) /\
  (exists lvl, level r = [lvl] /\ In lvl (js "VDIWEAF")) /\
  (exists c t, tag r = c :: t /\ space c = false /\
               forallb (none_of ":") (tag r) = true) /\
  (exists c t, message r = c :: t /\ space c = false /\
               forallb dot (message r) = true).

(** The columns of the table, by their [dataIndex]; these are the only
    keys [toggleColumnVisibility] is called with. *)
Inductive column := Timestamp | Pid | Tid | Level | Tag | Message.

Definition columns : list column := [Timestamp; Pid; Tid; Level; Tag; Message].

Definition column_eqb (a b : column) : bool :=
  match a, b with
  | Timestamp, Timestamp | Pid, Pid | Tid, Tid | Level, Level | Tag, Tag
  | Message, Message => true
  | _, _ => false
  end.

(** [columnVisibility], as the value it holds for each column. *)
Definition visibility := column -> bool.

Definition initial_visibility : visibility := fun c =>
  match c with
  | Pid | Tid => false
  | _ => true
  end.

Definition toggleColumnVisibility (key : column) (prev : visibility)
  : visibility :=
  match key with
  | Message => prev
  | _ => fun c => if column_eqb c key then negb (prev key) else prev c
  end.

Definition visibleColumns (v : visibility) : list column := filter v columns.

Definition toggle_all (keys : list column) (v : visibility) : visibility :=
  fold_left (fun v k => toggleColumnVisibility k v) keys v.

Definition column_eq_dec (a b : column) : {a = b} + {a <> b}.
Proof. decide equality. Defined.

(** The levels a parsed record can carry: one letter of [VDIWEAF]. *)
Definition parsed_levels : list jsstring :=
  [js "V"; js "D"; js "I"; js "W"; js "E"; js "A"; js "F"].

(** A state of the filters after the user typed a tag, chose a level and
    added the filter. *)
Definition one_filter : filter_state :=
  addFilter (setLevel (js "W") (setTag (js "MyTag") filter_init)).

End Display.

(* ================================================================== *)
(** ** The preload services: devices and the logcat command *)

Module Services.

Record device := { value : jsstring; label : jsstring }.

(** The callback of [lines.map] in [getDevices], lines 127 to 130:
    [status] is [undefined] when the line has no tab. *)
Definition device_of_line (line : jsstring) : option device :=
  let parts := split TAB (trim line) in
  let id := nth 0 parts [] in
  match nth_error parts 1 with
  | Some status =>
      if (truthy id && str_eqb status (js "device"))%bool
      then Some {| value := id; label := id |}
      else None
  | None => None
  end.

(** Lines 125 to 131: the devices listed in the output of [adb devices]. *)
Definition parse_devices (stdout : jsstring) : list device :=
  let lines := slice_from 1 (split LF stdout) in
  map_some device_of_line lines.

(** [getDevices], given what the command did: [Some stdout], or [None]
    when [execAsync] rejected.  Every error is caught and gives the empty
    list. *)
Definition getDevices (adbPath : jsstring) (out : option jsstring)
  : list device :=
  if truthy adbPath then
    match out with
    | Some stdout => parse_devices stdout
    | None => []
    end
  else [].

Definition filter_arg (f : Filter) : jsstring :=
  ftag f ++ js ":" ++ flevel f.

(** Lines 158 to 166 of [startLogcat]: the arguments given to [spawn]. *)
Definition logcat_args (deviceId : jsstring) (filters : list Filter)
  : list jsstring :=
  let filterString := join SP (map filter_arg filters) in
  let args := [js "-s"; deviceId; js "logcat"; js "-v"; js "threadtime";
               js "-b"; js "main"] in
  if truthy filterString then args ++ split SP filterString else args.

(** [startLogcat]: the error thrown, or the command and its arguments. *)
Definition startLogcat (adbPath deviceId : jsstring) (filters : list Filter)
  : jsstring + jsstring * list jsstring :=
  if truthy adbPath then inr (adbPath, logcat_args deviceId filters)
  else inl (js "ADB path not configured").

(** A well-formed line of [adb devices]: an id without white space, a tab,
    a status without tab that ends in a code unit that is not white
    space, then blanks. *)
Definition entry_ok (e : jsstring * jsstring * jsstring) : Prop :=
  match e with
  | (id, status, pad) =>
      id <> [] /\ forallb (fun c => negb (space c)) id = true /\
      (exists body d, status = body ++ [d] /\ space d = false) /\
      ~ In TAB status /\ ~ In LF status /\
      forallb space pad = true /\ ~ In LF pad
  end.

Definition entry_line (e : jsstring * jsstring * jsstring) : jsstring :=
  match e with (id, status, pad) => id ++ TAB :: status ++ pad end.

Definition entry_device (e : jsstring * jsstring * jsstring)
  : option device :=
  match e with
  | (id, status, _) =>
      if str_eqb status (js "device")
      then Some {| value := id; label := id |} else None
  end.

(** The output of [adb devices]: a header line, then the lines of the
    devices. *)
Definition devices_output (header : jsstring)
           (entries : list (jsstring * jsstring * jsstring)) : jsstring :=
  header ++ LF :: concat (map (fun e => entry_line e ++ [LF]) entries).

End Services.

(* ================================================================== *)
(** * Properties *)

(** ** The definitions on small inputs *)

Example split_two_lines :
  split LF (js "ab" ++ [LF] ++ js "c" ++ [LF]) = [js "ab"; js "c"; []].
Proof. reflexivity. Qed.

Example split_empty : split LF [] = [[]].
Proof. reflexivity. Qed.

Example reassemble_mid_line :
  Worker.reassemble (js "10-") (js "01 x" ++ [LF] ++ js "y")
    = ([js "10-01 x"], js "y").
Proof. reflexivity. Qed.

Example slice_short : slice_from (-5) [1; 2; 3] = [1; 2; 3].
Proof. reflexivity. Qed.

Example slice_long : slice_from (-2) [1; 2; 3] = [2; 3].
Proof. reflexivity. Qed.

(** The tag is taken lazily, up to the first colon; the message keeps its
    own colons; runs of blanks separate the fields. *)
Example exec_lazy_tag :
  exec logRegex (js "10-01 12:00:00.000  123   456 W My Tag: a: b")
    = Some [js "10-01 12:00:00.000  123   456 W My Tag: a: b";
            js "10-01 12:00:00.000"; js "123"; js "456"; js "W";
            js "My Tag"; js "a: b"].
Proof. vm_compute. reflexivity. Qed.

(** The level letter and the tag are separate fields: the [LEVEL/TAG] form
    has no match. *)
Example exec_brief_form :
  exec logRegex (js "10-01 12:00:00.000 123 456 I/MyTag: hello") = None.
Proof. vm_compute. reflexivity. Qed.

(** ** The line reassembler *)

Section Reassembler.

Lemma pop_cons {A} (x y : A) (a : list A) :
  pop (x :: y :: a) = (x :: fst (pop (y :: a)), snd (pop (y :: a))).
Proof.
  change (pop (x :: y :: a))
    with (let (rest, l) := pop (y :: a) in (x :: rest, l)).
  destruct (pop (y :: a)); reflexivity.
Qed.

(** [split] then [pop] cuts a string into separator-free lines and a
    separator-free rest that join back to the string. *)
Lemma split_pop (s : jsstring) :
  exists ls r,
    pop (split LF s) = (ls, Some r) /\
    unlines ls ++ r = s /\ Forall no_LF ls /\ no_LF r.
Proof.
  induction s as [|c s (ls & r & Hp & Hj & Hl & Hr)].
  - exists [], []. repeat split; auto. intros [].
  - simpl. destruct (N.eqb_spec c LF) as [->|Hc].
    + exists ([] :: ls), r.
      destruct (split LF s) as [|p ps] eqn:E; [discriminate|].
      rewrite pop_cons, Hp. simpl. repeat split; auto.
      * unfold unlines in *. simpl. now rewrite Hj.
      * constructor; auto. intros [].
    + destruct (split LF s) as [|p ps] eqn:E; [discriminate|].
      destruct ps as [|q ps].
      * simpl in Hp. injection Hp as <- <-.
        exists [], (c :: p). simpl in *. subst s. repeat split; auto.
        intros [H|H]; [now apply Hc|now apply Hr].
      * rewrite pop_cons in Hp. rewrite pop_cons.
        destruct (pop (q :: ps)) as [rest l]. simpl in *.
        injection Hp as <- ->.
        exists ((c :: p) :: rest), r. inversion Hl; subst.
        repeat split; auto.
        constructor; auto. intros [H|H]; [now apply Hc|auto].
  Qed.

Lemma reassemble_spec (b d : jsstring) :
  let (ls, r) := Worker.reassemble b d in
  unlines ls ++ r = b ++ d /\ Forall no_LF ls /\ no_LF r.
Proof.
  unfold Worker.reassemble.
  destruct (split_pop (b ++ d)) as (ls & r & -> & Hj & Hl & Hr).
  destruct r; simpl; auto.
Qed.

Lemma unlines_app (l1 l2 : list jsstring) :
  unlines (l1 ++ l2) = unlines l1 ++ unlines l2.
Proof. unfold unlines. now rewrite map_app, concat_app. Qed.

Lemma ingest_all_spec (chunks : list jsstring) : forall b,
  let (ls, r) := ingest_all chunks b in
  unlines ls ++ r = b ++ concat chunks /\ Forall no_LF ls /\
  (no_LF b -> no_LF r).
Proof.
  induction chunks as [|c cs IH]; intro b; simpl.
  - rewrite app_nil_r. repeat split; auto.
  - pose proof (reassemble_spec b c) as H.
    destruct (Worker.reassemble b c) as [ls r].
    destruct H as (Hj & Hl & Hr).
    specialize (IH r). destruct (ingest_all cs r) as [more r'].
    destruct IH as (Hj' & Hl' & Hr').
    repeat split.
    + rewrite unlines_app, <- app_assoc, Hj', app_assoc, Hj.
      now rewrite <- app_assoc.
    + apply Forall_app; auto.
    + auto.
Qed.

(** A line ends at the first separator. *)
Lemma first_LF (x y a b : jsstring) :
  no_LF x -> no_LF y -> x ++ LF :: a = y ++ LF :: b -> x = y /\ a = b.
Proof.
  revert y. induction x as [|c x IH]; intros [|c' y] Hx Hy E; simpl in E.
  - injection E as ->. auto.
  - injection E as E _. exfalso. apply Hy. now left.
  - injection E as E _. exfalso. apply Hx. now left.
  - injection E as -> E.
    destruct (IH y) as [-> ->]; auto.
    + intro H. apply Hx. now right.
    + intro H. apply Hy. now right.
Qed.

(** The cut into lines and rest is unique. *)
Lemma unlines_inj (l1 : list jsstring) : forall l2 r1 r2,
  Forall no_LF l1 -> Forall no_LF l2 -> no_LF r1 -> no_LF r2 ->
  unlines l1 ++ r1 = unlines l2 ++ r2 -> l1 = l2 /\ r1 = r2.
Proof.
  induction l1 as [|x l1 IH]; intros [|y l2] r1 r2 H1 H2 Hr1 Hr2 E.
  - auto.
  - exfalso. apply Hr1. simpl in E. rewrite E.
    unfold unlines. simpl. rewrite <- !app_assoc. apply in_or_app. right.
    now left.
  - exfalso. apply Hr2. simpl in E. rewrite <- E.
    unfold unlines. simpl. rewrite <- !app_assoc. apply in_or_app. right.
    now left.
  - inversion H1; inversion H2; subst.
    unfold unlines in E. simpl in E. rewrite <- !app_assoc in E. simpl in E.
    apply first_LF in E; auto. destruct E as [-> E].
    destruct (IH l2 r1 r2) as [-> ->]; auto.
Qed.

Lemma count_no_LF (x : jsstring) :
  no_LF x -> count_occ N.eq_dec x LF = 0.
Proof. intro H. now apply count_occ_not_In. Qed.

Lemma count_unlines (ls : list jsstring) (r : jsstring) :
  Forall no_LF ls -> no_LF r ->
  count_occ N.eq_dec (unlines ls ++ r) LF = length ls.
Proof.
  intros Hl Hr. rewrite count_occ_app, (count_no_LF _ Hr), Nat.add_0_r.
  induction Hl as [|x ls Hx Hl IH]; [reflexivity|].
  unfold unlines in *. simpl. rewrite !count_occ_app, IH, (count_no_LF _ Hx).
  simpl. destruct (N.eq_dec LF LF); [lia|congruence].
Qed.

End Reassembler.

(** C3: for every sequence of chunks, the reassembler started on an empty
    partial line emits lines that hold no separator, that joined with their
    separators and followed by the separator-free partial line left over
    give back the concatenation of the chunks, and that are as many as the
    separators of that concatenation.  The result is the one of feeding the
    whole concatenation as a single chunk: chunk boundaries do not matter. *)
Theorem reassembler_emits_every_line (chunks : list jsstring) :
  let s := concat chunks in
  let lines := fst (ingest_all chunks []) in
  let rest := snd (ingest_all chunks []) in
  unlines lines ++ rest = s /\
  Forall no_LF lines /\ no_LF rest /\
  length lines = count_occ N.eq_dec s LF /\
  ingest_all chunks [] = Worker.reassemble [] s.
Proof.
  simpl.
  pose proof (ingest_all_spec chunks []) as H.
  pose proof (reassemble_spec [] (concat chunks)) as H'.
  destruct (ingest_all chunks []) as [ls r].
  destruct (Worker.reassemble [] (concat chunks)) as [ls' r'].
  simpl in *. destruct H as (Hj & Hl & Hr), H' as (Hj' & Hl' & Hr').
  assert (Hn : no_LF r) by (apply Hr; intros []).
  repeat split; auto.
  - rewrite <- Hj. symmetry. now apply count_unlines.
  - destruct (@unlines_inj ls ls' r r'); auto; congruence.
Qed.


(** ** The bounded view *)

Section View.

Import Viewer.

Lemma lastn_length {A} (n : nat) (l : list A) :
  length (lastn n l) = Nat.min (length l) n.
Proof. unfold lastn. rewrite length_skipn. lia. Qed.

Lemma lastn_app_lastn {A} (n : nat) (l b : list A) :
  lastn n (lastn n l ++ b) = lastn n (l ++ b).
Proof.
  unfold lastn at 1 3. rewrite !length_app, lastn_length.
  destruct (Nat.le_gt_cases (length l) n) as [Hle|Hgt].
  - unfold lastn. replace (length l - n) with 0 by lia.
    simpl. f_equal. lia.
  - unfold lastn. rewrite !skipn_app, skipn_skipn, length_skipn.
    f_equal; f_equal; lia.
Qed.

(** [slice(-MAX_LOGS)] keeps the last [MAX_LOGS] elements. *)
Lemma merge_lastn (b v : list LogRecord) :
  merge b v = lastn 1000 (v ++ b).
Proof.
  unfold merge, slice_from, lastn, MAX_LOGS.
  change (- (1000) <? 0)%Z with true. cbv iota.
  replace (Z.to_nat (Z.max (Z.of_nat (length (v ++ b)) + - (1000)) 0))
    with (length (v ++ b) - 1000) by lia.
  reflexivity.
Qed.

Lemma merge_all_lastn (batches : list (list LogRecord)) : forall v,
  merge_all batches (lastn 1000 v) = lastn 1000 (v ++ concat batches).
Proof.
  induction batches as [|b bs IH]; intro v; simpl.
  - now rewrite app_nil_r.
  - rewrite merge_lastn, lastn_app_lastn, IH. now rewrite <- app_assoc.
Qed.

Lemma reachable_bounded (st : state) :
  reachable st -> length (logs st) <= 1000.
Proof.
  induction 1 as [|now st st' _ IH Hs]; [simpl; lia|].
  destruct Hs as [m st|h d st _ _|b st].
  - destruct m as [p|]; simpl; auto.
    destruct (0 <? length p); auto.
  - simpl. rewrite merge_lastn, lastn_length. lia.
  - destruct b; simpl; auto. lia.
Qed.

End View.



(** ** The batch scheduler *)

Section Scheduler.

Import Worker.

Lemma remove_self (h : Timers.handle) (d : Z) : Timers.remove h [(h, d)] = [].
Proof. unfold Timers.remove. simpl. now rewrite Pos.eqb_refl. Qed.

Lemma due_single (h h' : Timers.handle) (d d' : Z) :
  Timers.due h [(h', d')] = Some d -> h = h' /\ d = d'.
Proof.
  simpl. destruct (Pos.eqb_spec h' h); [|discriminate].
  intro E. injection E as <-. auto.
Qed.

(** [sendBatch] leaves no timer behind. *)
Lemma sendBatch_timer (st : state) :
  timer_inv st ->
  timeoutId (sendBatch st) = None /\
  Timers.active (timers (sendBatch st)) = [].
Proof.
  unfold timer_inv, sendBatch.
  destruct (0 <? length (parsedLogsBuffer st));
    destruct (timeoutId st) as [h|] eqn:E; simpl; rewrite ?E; simpl;
    try tauto.
  all: intros [[d ->] _]; now rewrite remove_self.
Qed.

(** What [sendBatch] posts: the pending batch, unless it is empty. *)
Lemma sendBatch_posted (st : state) :
  posted (sendBatch st) =
    posted st ++ (match parsedLogsBuffer st with [] => [] | _ => [parsedLogsBuffer st] end)
  /\ parsedLogsBuffer (sendBatch st) = []
  /\ buffer (sendBatch st) = buffer st
  /\ rng (sendBatch st) = rng st.
Proof.
  unfold sendBatch.
  destruct (parsedLogsBuffer st) as [|r rs] eqn:P; simpl;
    destruct (timeoutId st); simpl; rewrite ?P, ?app_nil_r; auto.
Qed.

Lemma sendBatch_inv (st : state) : timer_inv st -> timer_inv (sendBatch st).
Proof.
  intro H. destruct (sendBatch_timer _ H) as [E1 E2].
  unfold timer_inv. now rewrite E1.
Qed.

Lemma submit_inv (recs : list LogRecord) (now : Z) (st : state) :
  timer_inv st -> timer_inv (submit recs now st).
Proof.
  intro H. unfold submit.
  destruct (0 <? length recs); auto.
  match goal with |- context [sendBatch ?s] => set (st1 := s) end.
  assert (H1 : timer_inv st1) by exact H.
  destruct (BATCH_SIZE <=? _).
  - now apply sendBatch_inv.
  - change (timeoutId st1) with (timeoutId st).
    destruct (timeoutId st) as [h|] eqn:E; [exact H1|].
    unfold timer_inv in *. rewrite E in H. simpl. rewrite H. simpl.
    split; [eauto|lia].
Qed.

Lemma onmessage_inv (m : message) (now : Z) (st : state) :
  timer_inv st -> timer_inv (onmessage m now st).
Proof.
  intro H. destruct m as [data| |]; simpl; auto.
  - destruct (reassemble (buffer st) data) as [lines rest].
    destruct (0 <? length lines); [|exact H].
    destruct (map_filter parseLogLine lines _) as [newly g].
    apply submit_inv. exact H.
  - unfold timer_inv in *. simpl.
    destruct (timeoutId st) as [h|]; auto.
    destruct H as [[d E] _]. unfold Timers.clearTimeout. simpl.
    now rewrite E, remove_self.
Qed.

Lemma ontimeout_inv (h : Timers.handle) (d : Z) (st : state) :
  timer_inv st ->
  Timers.due h (Timers.active (timers st)) = Some d ->
  timer_inv (ontimeout h st).
Proof.
  intros H Hd. unfold timer_inv in H.
  destruct (timeoutId st) as [h'|] eqn:E.
  - destruct H as [[d' A] _]. rewrite A in Hd.
    apply due_single in Hd. destruct Hd as [-> ->].
    unfold timer_inv, ontimeout, sendBatch. simpl.
    destruct (0 <? _); simpl; rewrite E; simpl;
      now rewrite A, remove_self.
  - rewrite H in Hd. discriminate.
Qed.

Lemma step_inv (now : Z) (st st' : state) :
  step now st st' -> timer_inv st -> timer_inv st'.
Proof.
  intros [m s|h d s Hd _|s] H.
  - now apply onmessage_inv.
  - now apply ontimeout_inv with d.
  - now apply sendBatch_inv.
Qed.

Lemma reachable_inv (g : random) (st : state) :
  reachable g st -> timer_inv st.
Proof.
  induction 1 as [|now st st' _ IH Hs]; [reflexivity|].
  now apply step_inv with now st.
Qed.



End Scheduler.




(** ** The record parser on the sample line *)

Section Parser.

Lemma exec_sample :
  exec logRegex sample_line =
    Some [sample_line; js "10-01 12:00:00.000"; js "123"; js "456"; js "I";
          js "MyTag"; js "hello"].
Proof. vm_compute. reflexivity. Qed.

Lemma parseLogLine_sample (g : random) :
  parseLogLine sample_line g =
    (Some {| timestamp := js "10-01 12:00:00.000"; pid := js "123";
             tid := js "456"; level := js "I"; tag := js "MyTag";
             message := js "hello";
             key := js "10-01 12:00:00.000-123-456-MyTag-"
                    ++ draw g (calls g) |},
     {| draw := draw g; calls := S (calls g) |}).
Proof. unfold parseLogLine. rewrite exec_sample. reflexivity. Qed.


Lemma no_LF_check (s : jsstring) : existsb (N.eqb LF) s = false -> no_LF s.
Proof.
  intros H Hin.
  assert (existsb (N.eqb LF) s = true)
    by (apply existsb_exists; exists LF; split; [exact Hin|apply N.eqb_refl]).
  congruence.
Qed.


Lemma reassemble_unlines (ls : list jsstring) (r : jsstring) :
  Forall no_LF ls -> no_LF r ->
  Worker.reassemble [] (unlines ls ++ r) = (ls, r).
Proof.
  intros Hl Hr.
  pose proof (reassemble_spec [] (unlines ls ++ r)) as H.
  destruct (Worker.reassemble [] (unlines ls ++ r)) as [ls' r'].
  destruct H as (Hj & Hl' & Hr'). simpl in Hj.
  destruct (unlines_inj ls' ls r' r); auto. congruence.
Qed.

End Parser.

Section ArgumentLimit.

Import Worker.





End ArgumentLimit.





(** ** Clearing the worker *)

Section Clear.

Import Worker.

Lemma sendBatch_with_posted (p : list (list LogRecord)) (st : state) :
  sendBatch (with_posted p st) = with_posted p (sendBatch st).
Proof.
  destruct st as [b pending [h|] tm po g]; unfold sendBatch, with_posted;
    simpl; destruct (0 <? length pending); simpl;
    rewrite ?app_assoc; reflexivity.
Qed.

Lemma submit_with_posted (p : list (list LogRecord)) (recs : list LogRecord)
      (t : Z) (st : state) :
  submit recs t (with_posted p st) = with_posted p (submit recs t st).
Proof.
  unfold submit. destruct (0 <? length recs); [|reflexivity].
  cbn [parsedLogsBuffer timeoutId timers posted rng buffer with_posted].
  destruct (BATCH_SIZE <=? _).
  - match goal with |- _ = with_posted p (sendBatch ?s) =>
      exact (sendBatch_with_posted p s) end.
  - destruct (timeoutId st); reflexivity.
Qed.

Lemma onmessage_with_posted (p : list (list LogRecord)) (m : message)
      (t : Z) (st : state) :
  onmessage m t (with_posted p st) = with_posted p (onmessage m t st).
Proof.
  destruct m as [data| |]; [|reflexivity|reflexivity].
  unfold onmessage.
  cbn [parsedLogsBuffer timeoutId timers posted rng buffer with_posted].
  destruct (reassemble (buffer st) data) as [lines rest].
  destruct (0 <? length lines); [|reflexivity].
  destruct (map_filter parseLogLine lines (rng st)) as [newly g'].
  match goal with |- _ = with_posted p (submit _ _ ?s) =>
    exact (submit_with_posted p newly t s) end.
Qed.

Lemma handle_event_with_posted (p : list (list LogRecord)) (e : event)
      (t : Z) (st : state) :
  handle_event e t (with_posted p st) = with_posted p (handle_event e t st).
Proof.
  destruct e as [m|h|]; simpl.
  - apply onmessage_with_posted.
  - destruct (Timers.due h _) as [d|]; [|reflexivity].
    destruct (d <=? t)%Z; [|reflexivity].
    unfold ontimeout.
    match goal with |- _ = with_posted p (sendBatch ?s) =>
      exact (sendBatch_with_posted p s) end.
  - apply sendBatch_with_posted.
Qed.

Lemma run_with_posted (p : list (list LogRecord)) (evs : list (Z * event)) :
  forall st,
  run_events evs (with_posted p st) = with_posted p (run_events evs st).
Proof.
  induction evs as [|[t e] evs IH]; intro st; [reflexivity|].
  simpl. now rewrite handle_event_with_posted, IH.
Qed.

(** After a clear the worker is a data-free worker that has posted what
    was posted before. *)
Lemma clear_blank (t : Z) (st : state) :
  timer_inv st ->
  onmessage Clear t st =
    with_posted (posted st) (blank (Timers.next (timers st)) (rng st)).
Proof.
  intro H. unfold onmessage, with_posted, blank. simpl.
  rewrite app_nil_r. f_equal.
  unfold timer_inv in H. destruct (timeoutId st) as [h|].
  - destruct H as [[d E] _]. unfold Timers.clearTimeout.
    now rewrite E, remove_self.
  - destruct (timers st). simpl in *. now subst.
Qed.

End Clear.

(** C8: a clear, in any state the worker can reach, leaves the partial line
    empty, the pending batch empty and no timer armed or active, and posts
    nothing.  Whatever events follow, the worker then posts what a worker
    holding no data posts on the same events: nothing buffered before the
    clear is ever emitted. *)
Theorem clear_discards_buffered_data (g : random) (st : Worker.state)
        (now : Z) :
  Worker.reachable g st ->
  let st' := Worker.onmessage Worker.Clear now st in
  Worker.buffer st' = [] /\
  Worker.parsedLogsBuffer st' = [] /\
  Worker.timeoutId st' = None /\
  Timers.active (Worker.timers st') = [] /\
  Worker.posted st' = Worker.posted st /\
  (forall evs,
     Worker.posted (Worker.run_events evs st') =
       Worker.posted st ++
       Worker.posted
         (Worker.run_events evs
            (Worker.blank (Timers.next (Worker.timers st)) (Worker.rng st)))).
Proof.
  intro Hr. apply reachable_inv in Hr. cbv zeta.
  rewrite (clear_blank now st Hr). simpl.
  repeat split; auto using app_nil_r.
  intro evs. now rewrite run_with_posted.
Qed.

(** A worker that holds a pending record, an armed timer and a partial
    line, then cleared. *)
Lemma clear_discards_buffered_data_witness :
  let g := const_random "0.5" in
  let busy :=
    Worker.onmessage (Worker.Process (sample_line ++ [LF] ++ js "10-01 12"))
                     0 (Worker.init g) in
  let st' := Worker.onmessage Worker.Clear 10 busy in
  Worker.buffer busy = js "10-01 12" /\
  length (Worker.parsedLogsBuffer busy) = 1 /\
  Worker.timeoutId busy = Some 1%positive /\
  Worker.buffer st' = [] /\
  Worker.parsedLogsBuffer st' = [] /\
  Worker.timeoutId st' = None /\
  Timers.active (Worker.timers st') = [] /\
  Worker.posted st' = [].
Proof.
  cbv zeta.
  pose proof (clear_discards_buffered_data (const_random "0.5")
    (Worker.onmessage (Worker.Process (sample_line ++ [LF] ++ js "10-01 12"))
                      0 (Worker.init (const_random "0.5"))) 10
    (Worker.reach_step _ 0 _ _ (Worker.reach_init _)
       (Worker.step_message 0 _ _))) as H.
  cbv zeta in H. destruct H as (H1 & H2 & H3 & H4 & H5 & _).
  repeat split; try assumption; try (vm_compute; reflexivity).
Defined.


(** ** The viewer's update timer *)

Section UpdateTimer.

Import Viewer.

Lemma viewer_step_inv (t : Z) (st st' : state) :
  step t st st' -> timer_inv st -> timer_inv st'.
Proof.
  intros [m s|h d s Hd _|b s] H; unfold timer_inv in *.
  - destruct m as [p|]; [|exact H]. simpl.
    destruct (0 <? length p); [|exact H]. simpl.
    destruct (logUpdateTimeoutRef s) as [h|].
    + destruct H as [[d E] Hlt]. simpl. rewrite E, remove_self. simpl.
      split; [eauto|lia].
    + rewrite H. simpl. split; [eauto|lia].
  - simpl. destruct (logUpdateTimeoutRef s) as [h'|].
    + destruct H as [[d' E] _]. rewrite E in Hd.
      apply due_single in Hd. destruct Hd as [-> ->].
      now rewrite E, remove_self.
    + rewrite H in Hd. discriminate.
  - simpl. destruct (logUpdateTimeoutRef s) as [h|]; [|exact H].
    destruct H as [[d E] _]. simpl. now rewrite E, remove_self.
Qed.

Lemma viewer_reachable_inv (st : state) : reachable st -> timer_inv st.
Proof.
  induction 1 as [|t st st' _ IH Hs]; [reflexivity|].
  now apply viewer_step_inv with t st.
Qed.

End UpdateTimer.

(** C1, as the code has it: a non-empty batch that arrives while the update
    timer is armed is staged, the armed timer is cancelled, and a new timer
    is armed for [LOG_UPDATE_INTERVAL] = 300 ms after this batch, which is
    then the only active timer: the staging window slides with every
    arrival.  An empty batch leaves the state as it is. *)
Theorem onBatch_restarts_window (st : Viewer.state)
        (payload : list LogRecord) (now : Z) (h : Timers.handle) :
  Viewer.reachable st ->
  Viewer.logUpdateTimeoutRef st = Some h ->
  payload <> [] ->
  let st' := Viewer.onmessage (Viewer.Logs payload) now st in
  let h' := Timers.next (Viewer.timers st) in
  Viewer.logBuffer st' = Viewer.logBuffer st ++ payload /\
  Viewer.logs st' = Viewer.logs st /\
  h' <> h /\
  Viewer.logUpdateTimeoutRef st' = Some h' /\
  Timers.active (Viewer.timers st') =
    [(h', (now + Viewer.LOG_UPDATE_INTERVAL)%Z)] /\
  Timers.due h (Timers.active (Viewer.timers st')) = None /\
  Viewer.onmessage (Viewer.Logs []) now st = st.
Proof.
  intros Hr Href Hne. apply viewer_reachable_inv in Hr.
  unfold Viewer.timer_inv in Hr. rewrite Href in Hr.
  destruct Hr as [[d E] Hlt]. cbv zeta.
  destruct payload as [|r payload]; [congruence|].
  unfold Viewer.onmessage. change (0 <? length (r :: payload)) with true.
  cbv iota. rewrite Href. simpl. rewrite E, remove_self. simpl.
  assert (Hneq : Timers.next (Viewer.timers st) <> h) by lia.
  repeat split; auto.
  destruct (Pos.eqb_spec (Timers.next (Viewer.timers st)) h); congruence.
Qed.

(** The second batch of the sample burst. *)
Lemma onBatch_restarts_window_witness :
  Viewer.logUpdateTimeoutRef burst_second = Some 2%positive /\
  Timers.active (Viewer.timers burst_second) = [(2%positive, 400%Z)] /\
  Timers.due 1%positive (Timers.active (Viewer.timers burst_second)) = None.
Proof.
  pose proof (onBatch_restarts_window burst_first [sample_record] 100
                1%positive
                (Viewer.reach_step 0 _ _ Viewer.reach_init
                   (Viewer.step_message 0 _ _))
                eq_refl
                (fun E : [sample_record] = [] => eq_ind [sample_record]
                   (fun l => match l with [] => False | _ => True end) I [] E))
    as H.
  cbv zeta in H. destruct H as (_ & _ & _ & H1 & H2 & H3 & _).
  split; [exact H1|split; [exact H2|exact H3]].
Defined.

(** C1, as the spec states it, fails: the first batch of the burst arms
    timer 1, due at 300; the second batch, at time 100, does not leave it
    untouched: timer 1 is gone and timer 2 is due at 400. *)
Lemma second_batch_rearms_timer :
  Viewer.logUpdateTimeoutRef burst_first = Some 1%positive /\
  Timers.active (Viewer.timers burst_first) = [(1%positive, 300%Z)] /\
  Viewer.logUpdateTimeoutRef burst_second = Some 2%positive /\
  Timers.active (Viewer.timers burst_second) = [(2%positive, 400%Z)] /\
  Viewer.timers burst_second <> Viewer.timers burst_first.
Proof.
  repeat split; try reflexivity. intro E. discriminate E.
Qed.


(** ** The record parser *)

Section Records.

(** A successful parse takes one draw and builds the key from the fields
    and that draw. *)
Lemma parseLogLine_Some (line : jsstring) (g g' : random) (r : LogRecord) :
  parseLogLine line g = (Some r, g') ->
  g' = {| draw := draw g; calls := S (calls g) |} /\
  key r = timestamp r ++ dash ++ pid r ++ dash ++ tid r ++ dash
          ++ tag r ++ dash ++ draw g (calls g) /\
  exists m, exec logRegex line = Some m /\
    timestamp r = nth 1 m [] /\ pid r = nth 2 m [] /\ tid r = nth 3 m [] /\
    level r = nth 4 m [] /\ tag r = nth 5 m [] /\ message r = nth 6 m [].
Proof.
  unfold parseLogLine. destruct (exec logRegex line) as [m|]; [|discriminate].
  simpl. intro E. injection E as <- <-. simpl. eauto 10.
Qed.

Lemma parseLogLine_None (line : jsstring) (g : random) :
  exec logRegex line = None -> parseLogLine line g = (None, g).
Proof. unfold parseLogLine. now intros ->. Qed.

Lemma map_filter_app (l1 l2 : list jsstring) : forall g,
  map_filter parseLogLine (l1 ++ l2) g =
    let (r1, g1) := map_filter parseLogLine l1 g in
    let (r2, g2) := map_filter parseLogLine l2 g1 in
    (r1 ++ r2, g2).
Proof.
  induction l1 as [|x l1 IH]; intro g; cbn [app map_filter].
  - now destruct (map_filter parseLogLine l2 g).
  - destruct (parseLogLine x g) as [r g1]. rewrite IH.
    destruct (map_filter parseLogLine l1 g1) as [r1 g2].
    destruct (map_filter parseLogLine l2 g2) as [r2 g3].
    now destruct r.
Qed.

(** A match at a later start position is found when no earlier one is. *)
Lemma exec_prefix (prefix line : jsstring) :
  exec logRegex line <> None -> exec logRegex (prefix ++ line) <> None.
Proof.
  intro H. induction prefix as [|c prefix IH]; [exact H|].
  cbn [app exec]. destruct (match_at logRegex (c :: prefix ++ line));
    [discriminate|exact IH].
Qed.

End Records.

(** C6: the sample line parses to the record with these fields, whatever
    [Math.random()] returns. *)
Theorem parse_sample_line (g : random) :
  exists r g',
    parseLogLine (js "10-01 12:00:00.000 123 456 I MyTag: hello") g
      = (Some r, g') /\
    timestamp r = js "10-01 12:00:00.000" /\
    pid r = js "123" /\ tid r = js "456" /\ level r = js "I" /\
    tag r = js "MyTag" /\ message r = js "hello".
Proof.
  change (js "10-01 12:00:00.000 123 456 I MyTag: hello") with sample_line.
  rewrite parseLogLine_sample. do 2 eexists. repeat split.
Qed.

(** C7: a line the grammar does not match makes [parseLogLine] return
    [null], without a draw and without an error (the function is total);
    among the lines of a chunk it leaves no record, and a chunk that is
    just this line changes nothing in a worker with an empty partial
    line: no record is pending, no timer armed, nothing posted. *)
Theorem unparsable_line_is_dropped (line : jsstring) (g : random)
        (st : Worker.state) (now : Z) :
  exec logRegex line = None ->
  parseLogLine line g = (None, g) /\
  (forall before after g0,
     map_filter parseLogLine (before ++ line :: after) g0 =
     map_filter parseLogLine (before ++ after) g0) /\
  (no_LF line -> Worker.buffer st = [] ->
     Worker.onmessage (Worker.Process (line ++ [LF])) now st = st).
Proof.
  intro H. split; [now apply parseLogLine_None|]. split.
  - intros before after g0. rewrite !map_filter_app.
    destruct (map_filter parseLogLine before g0) as [r1 g1].
    cbn [map_filter]. rewrite (parseLogLine_None line g1 H).
    now destruct (map_filter parseLogLine after g1).
  - intros Hn Hb. unfold Worker.onmessage. rewrite Hb.
    replace (line ++ [LF]) with (unlines [line] ++ [])
      by (unfold unlines; simpl; now rewrite !app_nil_r).
    rewrite reassemble_unlines; [|now constructor|intros []].
    cbn [length Nat.ltb Nat.leb map_filter Worker.rng].
    rewrite (parseLogLine_None line _ H).
    destruct st; simpl in *. now subst.
Qed.

(** The line [garbage]. *)
Lemma unparsable_line_is_dropped_witness :
  parseLogLine (js "garbage") (const_random "0.5")
    = (None, const_random "0.5") /\
  Worker.onmessage (Worker.Process (js "garbage" ++ [LF])) 0
                   (Worker.init (const_random "0.5"))
    = Worker.init (const_random "0.5").
Proof.
  destruct (unparsable_line_is_dropped (js "garbage") (const_random "0.5")
              (Worker.init (const_random "0.5")) 0 eq_refl)
    as (H1 & _ & H3).
  split; [exact H1|].
  apply H3; [apply no_LF_check|]; reflexivity.
Defined.

(** C10: the match is not anchored.  A line with text before the
    grammar-shaped part parses to the record of that part, and so does a
    line with a carriage return after it; in general text put before a
    matching line never makes it unparsable. *)
Theorem match_is_not_anchored (g : random) :
  parseLogLine (js "xx10-01 12:00:00.000 123 456 I MyTag: hello") g
    = parseLogLine (js "10-01 12:00:00.000 123 456 I MyTag: hello") g /\
  parseLogLine (js "10-01 12:00:00.000 123 456 I MyTag: hello" ++ [13%N]) g
    = parseLogLine (js "10-01 12:00:00.000 123 456 I MyTag: hello") g /\
  (exists r, fst (parseLogLine
                    (js "xx10-01 12:00:00.000 123 456 I MyTag: hello") g)
             = Some r /\ message r = js "hello") /\
  exec logRegex (js "xx") = None /\
  (forall prefix line,
     exec logRegex line <> None -> exec logRegex (prefix ++ line) <> None).
Proof.
  assert (E1 : exec logRegex
                 (js "xx10-01 12:00:00.000 123 456 I MyTag: hello")
               = exec logRegex sample_line) by (vm_compute; reflexivity).
  assert (E2 : exec logRegex (sample_line ++ [13%N])
               = exec logRegex sample_line) by (vm_compute; reflexivity).
  change (js "10-01 12:00:00.000 123 456 I MyTag: hello") with sample_line.
  split; [|split; [|split; [|split]]].
  - unfold parseLogLine. now rewrite E1.
  - unfold parseLogLine. now rewrite E2.
  - unfold parseLogLine at 1. rewrite E1, exec_sample. simpl. eauto.
  - vm_compute. reflexivity.
  - exact exec_prefix.
Qed.

(** C5, as the code has it: a call on a matching line takes exactly one
    draw of [Math.random()] and changes nothing else; the key is the
    timestamp, pid, tid and tag and that draw, joined by dashes.  So two
    calls whose lines agree in these four fields have distinct keys exactly
    when their draws differ; in particular two calls on the same line. *)
Theorem key_is_fields_and_draw (l1 l2 : jsstring) (g g1 g2 : random)
        (r1 r2 : LogRecord) :
  parseLogLine l1 g = (Some r1, g1) ->
  parseLogLine l2 g1 = (Some r2, g2) ->
  let d1 := draw g (calls g) in
  let d2 := draw g (S (calls g)) in
  key r1 = timestamp r1 ++ dash ++ pid r1 ++ dash ++ tid r1 ++ dash
           ++ tag r1 ++ dash ++ d1 /\
  key r2 = timestamp r2 ++ dash ++ pid r2 ++ dash ++ tid r2 ++ dash
           ++ tag r2 ++ dash ++ d2 /\
  draw g2 = draw g /\ calls g2 = S (S (calls g)) /\
  (timestamp r1 = timestamp r2 -> pid r1 = pid r2 -> tid r1 = tid r2 ->
   tag r1 = tag r2 -> (key r1 = key r2 <-> d1 = d2)) /\
  (l1 = l2 -> d1 <> d2 -> key r1 <> key r2).
Proof.
  intros H1 H2. cbv zeta.
  apply parseLogLine_Some in H1, H2.
  destruct H1 as (-> & K1 & m1 & X1 & T1 & P1 & I1 & _ & G1 & _).
  destruct H2 as (-> & K2 & m2 & X2 & T2 & P2 & I2 & _ & G2 & _).
  cbn [draw calls] in *.
  assert (Hiff : timestamp r1 = timestamp r2 -> pid r1 = pid r2 ->
                 tid r1 = tid r2 -> tag r1 = tag r2 ->
                 (key r1 = key r2 <-> draw g (calls g) = draw g (S (calls g)))).
  { intros Et Ep Ei Eg. rewrite K1, K2, Et, Ep, Ei, Eg. split.
    - intro E. repeat apply app_inv_head in E. exact E.
    - now intros ->. }
  repeat split; auto; try (apply Hiff; assumption).
  intros -> Hd E. rewrite X1 in X2. injection X2 as <-.
  apply Hd, Hiff; congruence.
Qed.

(** Two calls on the sample line with the draws [0.25] and [0.75]. *)
Lemma key_is_fields_and_draw_witness :
  key {| timestamp := js "10-01 12:00:00.000"; pid := js "123";
         tid := js "456"; level := js "I"; tag := js "MyTag";
         message := js "hello";
         key := js "10-01 12:00:00.000-123-456-MyTag-0.25" |}
  <> key {| timestamp := js "10-01 12:00:00.000"; pid := js "123";
            tid := js "456"; level := js "I"; tag := js "MyTag";
            message := js "hello";
            key := js "10-01 12:00:00.000-123-456-MyTag-0.75" |}.
Proof.
  refine (proj2 (proj2 (proj2 (proj2 (proj2
    (key_is_fields_and_draw sample_line sample_line two_draws _ _ _ _
       (parseLogLine_sample two_draws) (parseLogLine_sample _)))))) eq_refl _).
  simpl. intro E. discriminate E.
Defined.

(** C5, as the spec states it, fails: when [Math.random()] returns the same
    number twice, two calls on the same line give the same key. *)
Lemma repeated_draw_repeats_key :
  parseLogLine sample_line (const_random "0.5")
    = (Some sample_record, {| draw := fun _ => js "0.5"; calls := 1 |}) /\
  parseLogLine sample_line {| draw := fun _ => js "0.5"; calls := 1 |}
    = (Some sample_record, {| draw := fun _ => js "0.5"; calls := 2 |}) /\
  key sample_record = js "10-01 12:00:00.000-123-456-MyTag-0.5".
Proof. repeat split; rewrite parseLogLine_sample; reflexivity. Qed.


(* ================================================================== *)
(** * Further properties of the pipeline *)

(** ** Invariants of the worker *)

Section WorkerInvariants.

Import Worker Pipeline.

Lemma sendBatch_pending_inv (st : state) :
  nonempty_batches st -> pending_inv (sendBatch st).
Proof.
  unfold pending_inv, nonempty_batches.
  destruct st as [b [|r rs] [h|] tm po g]; unfold sendBatch; simpl; intro H;
    (split; [tauto|split; [unfold BATCH_SIZE; lia|]]); auto;
    apply Forall_app; split; auto; constructor; auto; discriminate.
Qed.

Lemma submit_pending_inv (recs : list LogRecord) (t : Z) (st : state) :
  pending_inv st -> pending_inv (submit recs t st).
Proof.
  intro H. unfold submit.
  destruct recs as [|r recs]; [exact H|]. destruct H as (Hiff & Hlen & Hp).
  change (0 <? length (r :: recs)) with true. cbv iota beta zeta.
  cbn [parsedLogsBuffer timeoutId timers posted rng buffer].
  destruct (Nat.leb_spec BATCH_SIZE (length (parsedLogsBuffer st ++ r :: recs)))
    as [Hge|Hlt].
  - now apply sendBatch_pending_inv.
  - assert (Hne : parsedLogsBuffer st ++ r :: recs <> [])
      by (now destruct (parsedLogsBuffer st)).
    destruct (timeoutId st) as [h|]; unfold pending_inv; simpl;
      (split; [split; [discriminate|congruence]|split; [exact Hlt|exact Hp]]).
Qed.

Lemma onmessage_pending_inv (m : message) (t : Z) (st : state) :
  pending_inv st -> pending_inv (onmessage m t st).
Proof.
  intro H. destruct m as [data| |]; [| |exact H].
  - unfold onmessage.
    destruct (reassemble (buffer st) data) as [lines rest].
    cbn [parsedLogsBuffer timeoutId timers posted rng buffer].
    destruct (0 <? length lines); [|exact H].
    destruct (map_filter parseLogLine lines (rng st)) as [newly g'].
    apply submit_pending_inv. exact H.
  - destruct H as (_ & _ & Hp). unfold pending_inv. simpl.
    split; [tauto|split; [unfold BATCH_SIZE; lia|exact Hp]].
Qed.

Lemma reachable_pending_inv (g : random) (st : state) :
  reachable g st -> pending_inv st.
Proof.
  induction 1 as [|t st st' _ IH Hs].
  - unfold pending_inv, nonempty_batches. simpl.
    split; [tauto|split; [unfold BATCH_SIZE; lia|constructor]].
  - destruct Hs as [m st|h d st _ _|st].
    + now apply onmessage_pending_inv.
    + apply sendBatch_pending_inv. apply IH.
    + apply sendBatch_pending_inv. apply IH.
Qed.

(** A reachable state with a pending record. *)
Lemma busy_reachable :
  reachable (const_random "0.5")
    (onmessage (Process (sample_line ++ [LF] ++ js "10-01 12")) 0
               (init (const_random "0.5"))).
Proof.
  exact (reach_step _ 0 _ _ (reach_init _) (step_message 0 _ _)).
Defined.

End WorkerInvariants.

(** X1: in every state the worker can reach, a timer is armed exactly when
    records are pending, and fewer than [BATCH_SIZE] records are pending.
    With nothing pending [timeoutId] is [null] and the timer table is
    empty; with records pending [timeoutId] names a timer, that timer is
    the one active timer of the table, and its callback posts the pending
    records as one batch and leaves nothing pending: no record waits
    without a timer that will flush it, and no timer is armed for an empty
    buffer. *)
Theorem worker_timer_iff_pending (g : random) (st : Worker.state) :
  Worker.reachable g st ->
  (Worker.timeoutId st = None <-> Worker.parsedLogsBuffer st = []) /\
  (Worker.parsedLogsBuffer st = [] ->
   Timers.active (Worker.timers st) = []) /\
  (Worker.parsedLogsBuffer st <> [] ->
   exists h d,
     Worker.timeoutId st = Some h /\
     Timers.active (Worker.timers st) = [(h, d)] /\
     Worker.posted (Worker.ontimeout h st)
       = Worker.posted st ++ [Worker.parsedLogsBuffer st] /\
     Worker.parsedLogsBuffer (Worker.ontimeout h st) = [] /\
     Worker.timeoutId (Worker.ontimeout h st) = None /\
     Timers.active (Worker.timers (Worker.ontimeout h st)) = []) /\
  length (Worker.parsedLogsBuffer st) < Worker.BATCH_SIZE.
Proof.
  intro H. pose proof (reachable_inv g st H) as T.
  apply reachable_pending_inv in H. destruct H as (H1 & H2 & _).
  unfold Worker.timer_inv in T.
  split; [exact H1|]. split; [|split; [|exact H2]].
  - intro E. apply H1 in E. now rewrite E in T.
  - intro Hne. destruct (Worker.timeoutId st) as [h|] eqn:E.
    + destruct T as [[d A] _]. exists h, d.
      split; [reflexivity|]. split; [exact A|].
      unfold Worker.ontimeout.
      match goal with |- context [Worker.sendBatch ?s] =>
        destruct (sendBatch_posted s) as (P & B & _);
        assert (I : Worker.timer_inv (Worker.sendBatch s)) end.
      { unfold Worker.timer_inv, Worker.sendBatch. simpl.
        destruct (0 <? _); simpl; rewrite E; simpl;
          now rewrite A, remove_self. }
      rewrite P, B. simpl Worker.parsedLogsBuffer. simpl Worker.posted.
      split; [now destruct (Worker.parsedLogsBuffer st)|].
      split; [reflexivity|].
      unfold Worker.timer_inv in I.
      assert (N : Worker.timeoutId
                    (Worker.sendBatch
                       {| Worker.buffer := Worker.buffer st;
                          Worker.parsedLogsBuffer := Worker.parsedLogsBuffer st;
                          Worker.timeoutId := Worker.timeoutId st;
                          Worker.timers :=
                            Timers.clearTimeout h (Worker.timers st);
                          Worker.posted := Worker.posted st;
                          Worker.rng := Worker.rng st |}) = None).
      { unfold Worker.sendBatch. simpl. destruct (0 <? _); simpl;
          now rewrite E. }
      rewrite E in *. rewrite N in I. split; [exact N|exact I].
    + exfalso. apply Hne. now apply H1.
Qed.

Lemma worker_timer_iff_pending_witness :
  exists h d,
    Worker.timeoutId
      (Worker.onmessage
         (Worker.Process (sample_line ++ [LF] ++ js "10-01 12")) 0
         (Worker.init (const_random "0.5"))) = Some h /\
    Timers.active
      (Worker.timers
         (Worker.onmessage
            (Worker.Process (sample_line ++ [LF] ++ js "10-01 12")) 0
            (Worker.init (const_random "0.5")))) = [(h, d)].
Proof.
  destruct (worker_timer_iff_pending _ _ busy_reachable) as (_ & _ & H & _).
  destruct H as (h & d & H1 & H2 & _).
  - vm_compute. discriminate.
  - exists h, d. split; [exact H1|exact H2].
Defined.

(** X2: no batch the worker ever posts is empty, whichever of the size
    trigger, the timer and [onclose] ran [sendBatch]. *)
Theorem worker_never_posts_empty_batch (g : random) (st : Worker.state)
        (batch : list LogRecord) :
  Worker.reachable g st -> In batch (Worker.posted st) -> batch <> [].
Proof.
  intros H Hin. apply reachable_pending_inv in H.
  destruct H as (_ & _ & H). unfold Pipeline.nonempty_batches in H.
  rewrite Forall_forall in H. now apply H.
Qed.

Lemma worker_never_posts_empty_batch_witness :
  Worker.posted
    (Worker.onclose
       (Worker.onmessage (Worker.Process (sample_line ++ [LF])) 0
          (Worker.init (const_random "0.5"))))
  = [[sample_record]] /\
  [sample_record] <> [].
Proof.
  split; [reflexivity|].
  refine (worker_never_posts_empty_batch (const_random "0.5")
            (Worker.onclose
               (Worker.onmessage (Worker.Process (sample_line ++ [LF])) 0
                  (Worker.init (const_random "0.5"))))
            [sample_record] _ _).
  - exact (Worker.reach_step _ 1 _ _
             (Worker.reach_step _ 0 _ _ (Worker.reach_init _)
                (Worker.step_message 0 _ _))
             (Worker.step_close 1 _)).
  - left. reflexivity.
Defined.

(** ** Nothing is lost or reordered between the chunks and the batches *)

Section Delivery.

Import Worker Pipeline.

Lemma ingest_all_concat (chunks : list jsstring) :
  ingest_all chunks [] = reassemble [] (concat chunks).
Proof.
  pose proof (ingest_all_spec chunks []) as H.
  pose proof (reassemble_spec [] (concat chunks)) as H'.
  destruct (ingest_all chunks []) as [ls r].
  destruct (reassemble [] (concat chunks)) as [ls' r'].
  simpl in *. destruct H as (Hj & Hl & Hr), H' as (Hj' & Hl' & Hr').
  assert (Hn : no_LF r) by (apply Hr; intros []).
  destruct (unlines_inj ls ls' r r'); auto; congruence.
Qed.

Lemma sendBatch_delivered (st : state) :
  delivered (sendBatch st) = delivered st /\
  buffer (sendBatch st) = buffer st /\ rng (sendBatch st) = rng st.
Proof.
  unfold delivered.
  destruct st as [b [|r rs] [h|] tm po g]; unfold sendBatch; simpl;
    rewrite ?concat_app; simpl; rewrite ?app_nil_r, <- ?app_assoc; auto.
Qed.

Lemma submit_delivered (recs : list LogRecord) (t : Z) (st : state) :
  delivered (submit recs t st) = delivered st ++ recs /\
  buffer (submit recs t st) = buffer st /\ rng (submit recs t st) = rng st.
Proof.
  unfold submit. destruct recs as [|r recs].
  - simpl. now rewrite app_nil_r.
  - change (0 <? length (r :: recs)) with true. cbv iota beta zeta.
    cbn [parsedLogsBuffer timeoutId timers posted rng buffer].
    destruct (BATCH_SIZE <=? _).
    + match goal with |- context [sendBatch ?s] =>
        destruct (sendBatch_delivered s) as (-> & -> & ->) end.
      unfold delivered. simpl. now rewrite app_assoc.
    + destruct (timeoutId st); unfold delivered; simpl;
        now rewrite app_assoc.
Qed.

(** The records of a sequence of chunks, fed one by one from the partial
    line [b] with the random source [g]. *)
Lemma run_events_delivered (evs : list (Z * event)) : forall st,
  no_clear evs = true ->
  let lines := fst (ingest_all (worker_chunks evs) (buffer st)) in
  delivered (run_events evs st)
    = delivered st ++ fst (map_filter parseLogLine lines (rng st)) /\
  buffer (run_events evs st)
    = snd (ingest_all (worker_chunks evs) (buffer st)) /\
  rng (run_events evs st) = snd (map_filter parseLogLine lines (rng st)).
Proof.
  induction evs as [|[t e] evs IH]; intros st Hc; cbv zeta.
  - simpl. now rewrite app_nil_r.
  - destruct e as [[data| |]|h|].
    + cbn [no_clear] in Hc. cbn [worker_chunks ingest_all run_events].
      unfold handle_event, onmessage.
      destruct (reassemble (buffer st) data) as [lines rest] eqn:R.
      cbn [parsedLogsBuffer timeoutId timers posted rng buffer].
      match goal with |- context [run_events evs ?s] => set (st1 := s) end.
      assert (H1 : delivered st1 =
                     delivered st ++ fst (map_filter parseLogLine lines (rng st))
                   /\ buffer st1 = rest
                   /\ rng st1 = snd (map_filter parseLogLine lines (rng st))).
      { subst st1. destruct lines as [|l lines]; [simpl; now rewrite app_nil_r|].
        change (0 <? length (l :: lines)) with true. cbv iota.
        destruct (map_filter parseLogLine (l :: lines) (rng st)) as [newly g'].
        match goal with |- context [submit newly t ?s] =>
          destruct (submit_delivered newly t s) as (-> & -> & ->) end.
        auto. }
      destruct H1 as (D1 & B1 & G1).
      destruct (IH st1 Hc) as (D & B & G). cbv zeta in *.
      rewrite B1, G1 in *.
      destruct (ingest_all (worker_chunks evs) rest) as [more b'].
      cbn [fst snd] in *. rewrite map_filter_app.
      destruct (map_filter parseLogLine lines (rng st)) as [r1 g1].
      cbn [fst snd] in *.
      destruct (map_filter parseLogLine more g1) as [r2 g2].
      cbn [fst snd] in *. rewrite D, D1, B, G. now rewrite app_assoc.
    + discriminate Hc.
    + exact (IH st Hc).
    + cbn [no_clear] in Hc. cbn [worker_chunks run_events handle_event].
      destruct (Timers.due h _) as [d|]; [|exact (IH st Hc)].
      destruct (d <=? t)%Z; [|exact (IH st Hc)].
      unfold ontimeout.
      match goal with |- context [sendBatch ?s] =>
        destruct (sendBatch_delivered s) as (D1 & B1 & G1);
        destruct (IH (sendBatch s) Hc) as (D & B & G) end.
      cbv zeta in *. rewrite B1, G1, D1 in *. auto.
    + cbn [no_clear] in Hc. cbn [worker_chunks run_events handle_event].
      unfold onclose.
      destruct (sendBatch_delivered st) as (D1 & B1 & G1).
      destruct (IH (sendBatch st) Hc) as (D & B & G).
      cbv zeta in *. rewrite B1, G1, D1 in *. auto.
Qed.

End Delivery.

(** X3: over any run of the worker without a clear, started fresh, the
    batches posted so far followed by the pending records are exactly the
    records of the complete lines of the whole input, in the order of the
    lines, however the input was cut into chunks and whenever the timer
    fired; the partial line held is the unterminated end of the input. *)
Theorem worker_delivers_every_record (g : random)
        (evs : list (Z * Worker.event)) :
  Pipeline.no_clear evs = true ->
  let st := Worker.run_events evs (Worker.init g) in
  let input := concat (Pipeline.worker_chunks evs) in
  concat (Worker.posted st) ++ Worker.parsedLogsBuffer st
    = fst (map_filter parseLogLine (fst (Worker.reassemble [] input)) g) /\
  Worker.buffer st = snd (Worker.reassemble [] input).
Proof.
  intro Hc. cbv zeta.
  destruct (run_events_delivered evs (Worker.init g) Hc) as (D & B & _).
  cbv zeta in *. simpl Worker.buffer in *. simpl Worker.rng in *.
  rewrite ingest_all_concat in *. unfold Pipeline.delivered in D.
  rewrite D, B. auto.
Qed.

(** A line cut in two chunks, then the timer. *)
Lemma worker_delivers_every_record_witness :
  Pipeline.no_clear Pipeline.sample_run = true /\
  concat (Worker.posted
            (Worker.run_events Pipeline.sample_run
               (Worker.init (const_random "0.5"))))
  ++ Worker.parsedLogsBuffer
       (Worker.run_events Pipeline.sample_run
          (Worker.init (const_random "0.5")))
  = fst (map_filter parseLogLine
           (fst (Worker.reassemble []
                   (concat (Pipeline.worker_chunks Pipeline.sample_run))))
           (const_random "0.5")).
Proof.
  split; [reflexivity|].
  exact (proj1 (worker_delivers_every_record (const_random "0.5")
                  Pipeline.sample_run eq_refl)).
Defined.

(** ** Invariants of the viewer *)

Section ViewerInvariants.

Import Viewer Pipeline.

Lemma viewer_step_staged (t : Z) (st st' : state) :
  step t st st' ->
  (logUpdateTimeoutRef st = None <-> logBuffer st = []) ->
  (logUpdateTimeoutRef st' = None <-> logBuffer st' = []).
Proof.
  intros [m s|h d s _ _|b s] H.
  - destruct m as [p|]; [|exact H]. unfold onmessage.
    destruct p as [|r p]; [exact H|].
    change (0 <? length (r :: p)) with true. cbv iota. simpl.
    split; [discriminate|]. now destruct (logBuffer s).
  - simpl. tauto.
  - simpl. tauto.
Qed.

Lemma viewer_handle_accounts (e : viewer_event) (t : Z) (st : state)
      (received : list LogRecord) :
  accounts st received ->
  match e with
  | VMessage (Logs p) => accounts (viewer_handle e t st) (received ++ p)
  | VReset _ => True
  | _ => accounts (viewer_handle e t st) received
  end.
Proof.
  intros (merged & Hl & Hm). destruct e as [[p|]|h|b]; simpl; auto.
  - destruct p as [|r p]; simpl.
    + exists merged. rewrite app_nil_r. auto.
    + exists merged. simpl. rewrite app_assoc, Hm. auto.
  - exists merged. auto.
  - destruct (Timers.due h _) as [d|]; [|exists merged; auto].
    destruct (d <=? t)%Z; [|exists merged; auto].
    exists (merged ++ logBuffer st). simpl.
    rewrite merge_lastn, Hl, lastn_app_lastn, app_nil_r. auto.
Qed.

Lemma viewer_run_accounts (evs : list (Z * viewer_event)) :
  forall st received,
    no_reset evs = true -> accounts st received ->
    accounts (viewer_run evs st) (received ++ concat (viewer_payloads evs)).
Proof.
  induction evs as [|[t e] evs IH]; intros st received Hn Ha.
  - simpl. now rewrite app_nil_r.
  - pose proof (viewer_handle_accounts e t st received Ha) as H.
    destruct e as [[p|]|h|b]; cbn [no_reset viewer_payloads viewer_run concat] in *.
    + rewrite app_assoc. now apply IH.
    + now apply IH.
    + now apply IH.
    + discriminate Hn.
Qed.

End ViewerInvariants.

(** C2: after any sequence of merges into the initially empty view, the
    view is the last [MAX_LOGS] = 1000 of all the records merged, in the
    order of their arrival: it holds the smaller of 1000 and the number
    merged, and what was merged is the evicted oldest records followed by
    the view.  The merge is the one the update-timer callback does: the
    callback leaves in [logs] the last 1000 of the view followed by the
    staged records, and over any run of the viewer without reset [logs] is
    the last 1000 of the records received and merged so far (those
    received but for the ones still staged).  In every state the viewer
    can reach, [logs] holds at most 1000 records. *)
Theorem view_keeps_most_recent (batches : list (list LogRecord)) :
  let merged := concat batches in
  let view := Viewer.merge_all batches [] in
  length view = Nat.min (length merged) 1000 /\
  view = skipn (length merged - 1000) merged /\
  merged = firstn (length merged - 1000) merged ++ view /\
  (forall st, Viewer.reachable st -> length (Viewer.logs st) <= 1000) /\
  (forall st h,
     Viewer.logs (Viewer.ontimeout h st)
     = skipn (length (Viewer.logs st ++ Viewer.logBuffer st) - 1000)
             (Viewer.logs st ++ Viewer.logBuffer st) /\
     Viewer.logs (Viewer.ontimeout h st)
     = Viewer.merge_all [Viewer.logBuffer st] (Viewer.logs st)) /\
  (forall evs,
     Pipeline.no_reset evs = true ->
     let st := Pipeline.viewer_run evs Viewer.init in
     let received := concat (Pipeline.viewer_payloads evs) in
     let merged_so_far :=
       firstn (length received - length (Viewer.logBuffer st)) received in
     Viewer.logs st
     = skipn (length merged_so_far - 1000) merged_so_far).
Proof.
  cbv zeta.
  assert (E : Viewer.merge_all batches [] = lastn 1000 (concat batches)).
  { change (@nil LogRecord) with (lastn 1000 (@nil LogRecord)) at 1.
    now rewrite merge_all_lastn. }
  rewrite E.
  split; [apply lastn_length|]. split; [reflexivity|].
  split; [unfold lastn; now rewrite firstn_skipn|].
  split; [apply reachable_bounded|]. split.
  - intros st h. simpl. rewrite merge_lastn. split; reflexivity.
  - intros evs Hn.
    destruct (viewer_run_accounts evs Viewer.init [] Hn)
      as (m & Hl & Hm); [exists []; auto|].
    simpl in Hm. rewrite <- Hm.
    rewrite length_app, Nat.add_sub, firstn_app, Nat.sub_diag, firstn_all.
    cbn [firstn]. rewrite app_nil_r. exact Hl.
Qed.

Lemma viewer_reachable_staged (st : Viewer.state) :
  Viewer.reachable st ->
  (Viewer.logUpdateTimeoutRef st = None <-> Viewer.logBuffer st = []).
Proof.
  induction 1 as [|t st st' _ IH Hs]; [simpl; tauto|].
  now apply viewer_step_staged with t st.
Qed.

(** X4: in every state the viewer can reach, the update timer is armed
    exactly when records are staged.  With nothing staged the ref is
    [null] and the timer table is empty; with records staged the ref names
    a timer, that timer is the one active timer of the table, and its
    callback merges the staged records into the view (the last 1000 of
    the view followed by them), empties the staging buffer and disarms:
    staged records always have a timer that will merge them. *)
Theorem viewer_timer_iff_staged (st : Viewer.state) :
  Viewer.reachable st ->
  (Viewer.logUpdateTimeoutRef st = None <-> Viewer.logBuffer st = []) /\
  (Viewer.logBuffer st = [] -> Timers.active (Viewer.timers st) = []) /\
  (Viewer.logBuffer st <> [] ->
   exists h d,
     Viewer.logUpdateTimeoutRef st = Some h /\
     Timers.active (Viewer.timers st) = [(h, d)] /\
     Viewer.logs (Viewer.ontimeout h st)
       = lastn 1000 (Viewer.logs st ++ Viewer.logBuffer st) /\
     Viewer.logBuffer (Viewer.ontimeout h st) = [] /\
     Viewer.logUpdateTimeoutRef (Viewer.ontimeout h st) = None /\
     Timers.active (Viewer.timers (Viewer.ontimeout h st)) = []).
Proof.
  intro H. pose proof (viewer_reachable_inv st H) as T.
  apply viewer_reachable_staged in H. unfold Viewer.timer_inv in T.
  split; [exact H|]. split.
  - intro E. apply H in E. now rewrite E in T.
  - intro Hne. destruct (Viewer.logUpdateTimeoutRef st) as [h|] eqn:E.
    + destruct T as [[d A] _]. exists h, d.
      split; [reflexivity|]. split; [exact A|]. simpl.
      rewrite merge_lastn, A, remove_self. auto.
    + exfalso. apply Hne. now apply H.
Qed.

Lemma viewer_timer_iff_staged_witness :
  exists h d,
    Viewer.logUpdateTimeoutRef burst_second = Some h /\
    Timers.active (Viewer.timers burst_second) = [(h, d)] /\
    Viewer.logs (Viewer.ontimeout h burst_second)
      = lastn 1000 (Viewer.logs burst_second ++ Viewer.logBuffer burst_second).
Proof.
  destruct (viewer_timer_iff_staged burst_second
              (Viewer.reach_step 100 _ _
                 (Viewer.reach_step 0 _ _ Viewer.reach_init
                    (Viewer.step_message 0 _ _))
                 (Viewer.step_message 100 _ _))) as (_ & _ & H).
  destruct H as (h & d & H1 & H2 & H3 & _).
  - vm_compute. discriminate.
  - exists h, d. split; [exact H1|split; [exact H2|exact H3]].
Defined.

(** X5: over any run of the viewer without a reset, started fresh, the
    view followed by the staged records ends with the last 1000 records
    received, in their order; whenever nothing is staged (the timer has
    fired), the view is exactly the last 1000 records received. *)
Theorem viewer_shows_latest_received
        (evs : list (Z * Pipeline.viewer_event)) :
  Pipeline.no_reset evs = true ->
  let st := Pipeline.viewer_run evs Viewer.init in
  let received := concat (Pipeline.viewer_payloads evs) in
  lastn 1000 (Viewer.logs st ++ Viewer.logBuffer st) = lastn 1000 received /\
  (Viewer.logBuffer st = [] -> Viewer.logs st = lastn 1000 received).
Proof.
  intro Hn. cbv zeta.
  destruct (viewer_run_accounts evs Viewer.init [] Hn) as (merged & Hl & Hm).
  { exists []. auto. }
  simpl in Hm. rewrite <- Hm, Hl. split.
  - apply lastn_app_lastn.
  - intros ->. now rewrite app_nil_r.
Qed.

Lemma viewer_shows_latest_received_witness :
  Viewer.logs
    (Pipeline.viewer_run (Pipeline.sample_view_run sample_record sample_record)
                         Viewer.init)
  = lastn 1000 [sample_record; sample_record].
Proof.
  exact (proj2 (viewer_shows_latest_received
                  (Pipeline.sample_view_run sample_record sample_record)
                  eq_refl) eq_refl).
Defined.


(** ** The matcher returns only texts of the language *)

Section MatcherSound.

Context {R : Type}.

Lemma times_sound (n : nat) (p : charclass) :
  forall (s : jsstring) (k : jsstring -> option R) (res : R),
    times n p s k = Some res ->
    exists w s', s = w ++ s' /\ length w = n /\ forallb p w = true /\
                 k s' = Some res.
Proof.
  induction n as [|n IH]; intros s k res H; simpl in H.
  - exists [], s. auto.
  - destruct s as [|c s]; [discriminate|].
    destruct (p c) eqn:E; [|discriminate].
    destruct (IH s k res H) as (w & s' & -> & Hl & Hp & Hk).
    exists (c :: w), s'. simpl. rewrite E, Hl, Hp. auto.
Qed.

Lemma plus_greedy_sound (p : charclass) :
  forall (s : jsstring) (k : jsstring -> option R) (res : R),
    plus_greedy p s k = Some res ->
    exists w s', s = w ++ s' /\ w <> [] /\ forallb p w = true /\
                 k s' = Some res.
Proof.
  induction s as [|c s IH]; intros k res H; simpl in H; [discriminate|].
  destruct (p c) eqn:E; [|discriminate].
  destruct (plus_greedy p s k) as [r|] eqn:G.
  - injection H as ->.
    destruct (IH k res G) as (w & s' & -> & _ & Hp & Hk).
    exists (c :: w), s'. simpl. rewrite E, Hp. repeat split; auto.
    discriminate.
  - exists [c], s. simpl. rewrite E. repeat split; auto. discriminate.
Qed.

Lemma plus_lazy_sound (p : charclass) :
  forall (s : jsstring) (k : jsstring -> option R) (res : R),
    plus_lazy p s k = Some res ->
    exists w s', s = w ++ s' /\ w <> [] /\ forallb p w = true /\
                 k s' = Some res.
Proof.
  induction s as [|c s IH]; intros k res H; simpl in H; [discriminate|].
  destruct (p c) eqn:E; [|discriminate].
  destruct (k s) as [r|] eqn:K.
  - injection H as ->.
    exists [c], s. simpl. rewrite E. repeat split; auto. discriminate.
  - destruct (IH k res H) as (w & s' & -> & _ & Hp & Hk).
    exists (c :: w), s'. simpl. rewrite E, Hp. repeat split; auto.
    discriminate.
Qed.

Lemma firstn_consumed {A} (w s' : list A) :
  firstn (length (w ++ s') - length s') (w ++ s') = w.
Proof.
  rewrite length_app, Nat.add_sub.
  rewrite firstn_app, Nat.sub_diag, firstn_all. simpl. apply app_nil_r.
Qed.

Lemma run_sound (r : regex) :
  forall (s : jsstring) (caps : list jsstring)
         (k : jsstring -> list jsstring -> option R) (res : R),
    run r s caps k = Some res ->
    exists w s' c, s = w ++ s' /\ matches r w c /\
                   k s' (caps ++ c) = Some res.
Proof.
  induction r as [p|n p|b p|r1 IH1 r2 IH2|r1 IH1]; intros s caps k res H;
    cbn [run] in H.
  - destruct s as [|c s]; [discriminate|].
    destruct (p c) eqn:E; [|discriminate].
    exists [c], s, []. rewrite app_nil_r. repeat split; auto.
    now constructor.
  - apply times_sound in H. destruct H as (w & s' & -> & Hl & Hp & Hk).
    exists w, s', []. rewrite app_nil_r. repeat split; auto.
    now constructor.
  - assert (exists w s', s = w ++ s' /\ w <> [] /\ forallb p w = true /\
                         k s' caps = Some res) as (w & s' & -> & Hn & Hp & Hk).
    { destruct b; [apply plus_greedy_sound in H|apply plus_lazy_sound in H];
        exact H. }
    exists w, s', []. rewrite app_nil_r. repeat split; auto.
    now constructor.
  - apply IH1 in H. destruct H as (w1 & s1 & c1 & -> & M1 & H).
    apply IH2 in H. destruct H as (w2 & s2 & c2 & -> & M2 & H).
    exists (w1 ++ w2), s2, (c1 ++ c2).
    rewrite <- !app_assoc in *. repeat split; auto. now constructor.
  - apply IH1 in H. destruct H as (w & s' & c & -> & M & H).
    rewrite firstn_consumed in H.
    exists w, s', (c ++ [w]). rewrite <- app_assoc in H.
    repeat split; auto. now constructor.
Qed.

End MatcherSound.

Section ParserSound.

Lemma exec_sound (r : regex) : forall (s : jsstring) (m : list jsstring),
  exec r s = Some m ->
  exists before w after c,
    s = before ++ w ++ after /\ matches r w c /\ m = w :: c.
Proof.
  induction s as [|x s IH]; intros m H; cbn [exec] in H.
  - destruct (match_at r []) as [m'|] eqn:E; [|discriminate].
    injection H as ->. unfold match_at in E.
    apply run_sound in E. destruct E as (w & s' & c & Hs & M & E).
    rewrite Hs, firstn_consumed in E. injection E as <-.
    exists [], w, s', c. auto.
  - destruct (match_at r (x :: s)) as [m'|] eqn:E.
    + injection H as ->. unfold match_at in E.
      apply run_sound in E. destruct E as (w & s' & c & Hs & M & E).
      rewrite Hs, firstn_consumed in E. injection E as <-.
      exists [], w, s', c. auto.
    + destruct (IH m H) as (before & w & after & c & -> & M & ->).
      exists (x :: before), w, after, c. auto.
Qed.

Lemma one_of_In (letters : string) (c : N) :
  one_of letters c = true -> In c (js letters).
Proof.
  unfold one_of. intro H. apply existsb_exists in H.
  destruct H as (x & Hin & E). apply N.eqb_eq in E. now subst.
Qed.

Lemma none_of_not_In (letters : string) (w : jsstring) (c : N) :
  forallb (none_of letters) w = true -> In c (js letters) -> ~ In c w.
Proof.
  intros H Hc Hw. rewrite forallb_forall in H. specialize (H c Hw).
  unfold none_of, one_of in H. apply negb_true_iff in H.
  assert (existsb (N.eqb c) (js letters) = true)
    by (apply existsb_exists; exists c; split; [exact Hc|apply N.eqb_refl]).
  congruence.
Qed.

Lemma matches_seq (r1 r2 : regex) (w : jsstring) (c : list jsstring) :
  matches (Seq r1 r2) w c ->
  exists w1 w2 c1 c2,
    w = w1 ++ w2 /\ c = c1 ++ c2 /\ matches r1 w1 c1 /\ matches r2 w2 c2.
Proof. inversion 1; subst. eauto 10. Qed.

Lemma matches_group (r : regex) (w : jsstring) (c : list jsstring) :
  matches (Group r) w c -> exists c0, c = c0 ++ [w] /\ matches r w c0.
Proof. inversion 1; subst. eauto. Qed.

Lemma matches_class (p : charclass) (w : jsstring) (c : list jsstring) :
  matches (Class p) w c -> exists ch, w = [ch] /\ c = [] /\ p ch = true.
Proof. inversion 1; subst. eauto. Qed.

Lemma matches_times (n : nat) (p : charclass) (w : jsstring)
      (c : list jsstring) :
  matches (Times n p) w c -> c = [] /\ length w = n /\ forallb p w = true.
Proof. inversion 1; subst. auto. Qed.

Lemma matches_plus (b : bool) (p : charclass) (w : jsstring)
      (c : list jsstring) :
  matches (Plus b p) w c -> c = [] /\ w <> [] /\ forallb p w = true.
Proof. inversion 1; subst. auto. Qed.

Lemma lit_eq (a : ascii) (c : N) : lit a c = true -> c = N_of_ascii a.
Proof. unfold lit. intro H. apply N.eqb_eq in H. now subst. Qed.

(** Take the head of a sequence off [H]: its text is [w1], its fact [H1]. *)
Ltac head_of H w1 H1 :=
  let w := fresh "w" in
  let c1 := fresh "c" in
  let c := fresh "c" in
  apply matches_seq in H;
  destruct H as (w1 & w & c1 & c & -> & -> & H1 & H).

Ltac is_times H :=
  let L := fresh "L" in
  let P := fresh "P" in
  apply matches_times in H; destruct H as (-> & L & P).

Ltac is_plus H :=
  let L := fresh "L" in
  let P := fresh "P" in
  apply matches_plus in H; destruct H as (-> & L & P).

Ltac is_lit H :=
  let ch := fresh "ch" in
  let E := fresh "E" in
  apply matches_class in H; destruct H as (ch & -> & -> & E);
  apply lit_eq in E; subst ch.

Ltac is_group H :=
  let c0 := fresh "c" in
  apply matches_group in H; destruct H as (c0 & -> & H).

(** The shape of every text [logRegex] matches, and of its groups. *)
Lemma logRegex_shape (w : jsstring) (c : list jsstring) :
  matches logRegex w c ->
  exists MM DD sp hh mm ss mmm ws1 wpid ws2 wtid ws3 lvl ws4 wtag ws5 wmsg,
    let ts := MM ++ js "-" ++ DD ++ [sp] ++ hh ++ js ":" ++ mm ++ js ":"
              ++ ss ++ js "." ++ mmm in
    w = ts ++ ws1 ++ wpid ++ ws2 ++ wtid ++ ws3 ++ [lvl] ++ ws4 ++ wtag
        ++ js ":" ++ ws5 ++ wmsg /\
    c = [ts; wpid; wtid; [lvl]; wtag; wmsg] /\
    digits 2 MM /\ digits 2 DD /\ space sp = true /\ digits 2 hh /\
    digits 2 mm /\ digits 2 ss /\ digits 3 mmm /\
    blanks ws1 /\ blanks ws2 /\ blanks ws3 /\ blanks ws4 /\ blanks ws5 /\
    wpid <> [] /\ forallb digit wpid = true /\
    wtid <> [] /\ forallb digit wtid = true /\
    In lvl (js "VDIWEAF") /\
    wtag <> [] /\ ~ In 58%N wtag /\
    wmsg <> [] /\ forallb dot wmsg = true.
Proof.
  unfold logRegex. intro H.
  head_of H ts Hts. is_group Hts.
  head_of Hts MM HMM. is_times HMM.
  head_of Hts d1 Hd1. is_lit Hd1.
  head_of Hts DD HDD. is_times HDD.
  head_of Hts sp0 Hsp. apply matches_class in Hsp.
  destruct Hsp as (sp & -> & -> & Hsp).
  head_of Hts hh Hhh. is_times Hhh.
  head_of Hts d2 Hd2. is_lit Hd2.
  head_of Hts mm Hmm. is_times Hmm.
  head_of Hts d3 Hd3. is_lit Hd3.
  head_of Hts ss Hss. is_times Hss.
  head_of Hts d4 Hd4. is_lit Hd4.
  is_times Hts.
  head_of H ws1 H1. is_plus H1.
  head_of H wpid Hpid. is_group Hpid. is_plus Hpid.
  head_of H ws2 H2. is_plus H2.
  head_of H wtid Htid. is_group Htid. is_plus Htid.
  head_of H ws3 H3. is_plus H3.
  head_of H lvl0 Hlvl. is_group Hlvl. apply matches_class in Hlvl.
  destruct Hlvl as (lvl & -> & -> & Hlvl). apply one_of_In in Hlvl.
  head_of H ws4 H4. is_plus H4.
  head_of H wtag Htag. is_group Htag. is_plus Htag.
  head_of H d5 Hd5. is_lit Hd5.
  head_of H ws5 H5. is_plus H5.
  is_group H. is_plus H.
  match goal with HP : forallb (none_of _) wtag = true |- _ =>
    apply (none_of_not_In ":" wtag 58%N) in HP; [|now left] end.
  exists MM, DD, sp, hh, mm, ss. eexists.
  exists ws1, wpid, ws2, wtid, ws3, lvl, ws4, wtag, ws5. eexists.
  cbv zeta. unfold digits, blanks.
  split; [reflexivity|]. split; [reflexivity|].
  repeat split; assumption.
Qed.

End ParserSound.

(** X6: every record [parseLogLine] returns is well formed and is read off
    the line in order: the line is some text, the timestamp, blanks, the
    pid, blanks, the tid, blanks, the level letter, blanks, the tag, a
    colon, blanks, the message, and some text.  The timestamp has the
    shape [dd-dd dd:dd:dd.ddd], pid and tid are non-empty runs of digits,
    the level is one letter of [VDIWEAF], the tag is non-empty and holds no
    colon, the message is non-empty and holds no line terminator. *)
Theorem parsed_record_is_well_formed (line : jsstring) (g g' : random)
        (r : LogRecord) :
  parseLogLine line g = (Some r, g') ->
  exists before ws1 ws2 ws3 ws4 ws5 after MM DD sp hh mm ss mmm lvl,
    line = before ++ timestamp r ++ ws1 ++ pid r ++ ws2 ++ tid r ++ ws3
           ++ level r ++ ws4 ++ tag r ++ js ":" ++ ws5 ++ message r ++ after /\
    timestamp r = MM ++ js "-" ++ DD ++ [sp] ++ hh ++ js ":" ++ mm ++ js ":"
                  ++ ss ++ js "." ++ mmm /\
    digits 2 MM /\ digits 2 DD /\ space sp = true /\ digits 2 hh /\
    digits 2 mm /\ digits 2 ss /\ digits 3 mmm /\
    blanks ws1 /\ blanks ws2 /\ blanks ws3 /\ blanks ws4 /\ blanks ws5 /\
    pid r <> [] /\ forallb digit (pid r) = true /\
    tid r <> [] /\ forallb digit (tid r) = true /\
    level r = [lvl] /\ In lvl (js "VDIWEAF") /\
    tag r <> [] /\ ~ In 58%N (tag r) /\
    message r <> [] /\ forallb dot (message r) = true.
Proof.
  intro H. apply parseLogLine_Some in H.
  destruct H as (_ & _ & m & X & -> & -> & -> & -> & -> & ->).
  apply exec_sound in X. destruct X as (before & w & after & c & -> & M & ->).
  apply logRegex_shape in M.
  destruct M as (MM & DD & sp & hh & mm & ss & mmm & ws1 & wpid & ws2 & wtid
                 & ws3 & lvl & ws4 & wtag & ws5 & wmsg & M).
  cbv zeta in M. destruct M as (-> & -> & M).
  exists before, ws1, ws2, ws3, ws4, ws5, after, MM, DD, sp, hh, mm, ss, mmm,
    lvl.
  cbn [nth].
  split; [now rewrite <- !app_assoc|]. split; [reflexivity|].
  tauto.
Qed.

Lemma parsed_record_is_well_formed_witness :
  exists before ws1 ws2 ws3 ws4 ws5 after MM DD sp hh mm ss mmm lvl,
    sample_line
      = before ++ js "10-01 12:00:00.000" ++ ws1 ++ js "123" ++ ws2
        ++ js "456" ++ ws3 ++ js "I" ++ ws4 ++ js "MyTag" ++ js ":" ++ ws5
        ++ js "hello" ++ after /\
    js "10-01 12:00:00.000"
      = MM ++ js "-" ++ DD ++ [sp] ++ hh ++ js ":" ++ mm ++ js ":"
        ++ ss ++ js "." ++ mmm /\
    digits 2 MM /\ digits 2 DD /\ space sp = true /\ digits 2 hh /\
    digits 2 mm /\ digits 2 ss /\ digits 3 mmm /\
    blanks ws1 /\ blanks ws2 /\ blanks ws3 /\ blanks ws4 /\ blanks ws5 /\
    js "123" <> [] /\ forallb digit (js "123") = true /\
    js "456" <> [] /\ forallb digit (js "456") = true /\
    js "I" = [lvl] /\ In lvl (js "VDIWEAF") /\
    js "MyTag" <> [] /\ ~ In 58%N (js "MyTag") /\
    js "hello" <> [] /\ forallb dot (js "hello") = true.
Proof.
  exact (parsed_record_is_well_formed sample_line (const_random "0.5") _ _
           (parseLogLine_sample (const_random "0.5"))).
Defined.

(* ================================================================== *)
(** * Properties of the preload services *)

Section SplitJoin.

Variable sep : N.

Lemma split_not_nil (s : jsstring) : split sep s <> [].
Proof.
  destruct s as [|c s]; simpl; [discriminate|].
  destruct (N.eqb c sep); [discriminate|].
  destruct (split sep s); discriminate.
Qed.

Lemma split_no_sep (x : jsstring) : ~ In sep x -> split sep x = [x].
Proof.
  induction x as [|c x IH]; intro H; [reflexivity|]. simpl.
  destruct (N.eqb_spec c sep) as [->|_]; [exfalso; apply H; now left|].
  rewrite IH; [reflexivity|]. intro Hin. apply H. now right.
Qed.

Lemma split_app_sep (x rest : jsstring) :
  ~ In sep x -> split sep (x ++ sep :: rest) = x :: split sep rest.
Proof.
  induction x as [|c x IH]; intro H; simpl.
  - now rewrite N.eqb_refl.
  - destruct (N.eqb_spec c sep) as [->|_]; [exfalso; apply H; now left|].
    rewrite IH; [reflexivity|]. intro Hin. apply H. now right.
Qed.

Lemma join_cons (x : jsstring) (a : list jsstring) :
  a <> [] -> join sep (x :: a) = x ++ sep :: join sep a.
Proof. destruct a; [congruence|reflexivity]. Qed.

(** Joining the pieces of a split gives the string back. *)
Lemma join_split (s : jsstring) : join sep (split sep s) = s.
Proof.
  induction s as [|c s IH]; [reflexivity|]. simpl.
  destruct (N.eqb_spec c sep) as [->|_].
  - rewrite join_cons by apply split_not_nil. now rewrite IH.
  - pose proof (split_not_nil s) as Hn.
    destruct (split sep s) as [|p ps]; [congruence|].
    destruct ps as [|q ps]; simpl in *; now rewrite <- IH.
Qed.

(** Splitting a join of separator-free pieces gives the pieces back. *)
Lemma split_join (a : list jsstring) :
  a <> [] -> Forall (fun x => ~ In sep x) a -> split sep (join sep a) = a.
Proof.
  induction a as [|x a IH]; intros Hn Hf; [congruence|].
  inversion Hf as [|? ? Hx Ha]; subst.
  destruct a as [|y a].
  - simpl. now apply split_no_sep.
  - rewrite join_cons by discriminate.
    rewrite split_app_sep by exact Hx.
    rewrite IH; [reflexivity|discriminate|exact Ha].
Qed.

(** No piece of a split holds the separator, and there is one piece more
    than separators. *)
Lemma split_pieces (s : jsstring) :
  Forall (fun x => ~ In sep x) (split sep s).
Proof.
  induction s as [|c s IH]; simpl.
  - constructor; [intros []|constructor].
  - destruct (N.eqb_spec c sep) as [->|Hc].
    + constructor; [intros []|exact IH].
    + destruct (split sep s) as [|p ps]; [repeat constructor; simpl; tauto|].
      inversion IH; subst. constructor; [|assumption].
      intros [H|H]; [now apply Hc|auto].
Qed.

Lemma split_length (s : jsstring) :
  length (split sep s) = S (count_occ N.eq_dec s sep).
Proof.
  induction s as [|c s IH]; [reflexivity|]. simpl.
  destruct (N.eqb_spec c sep) as [->|Hc].
  - destruct (N.eq_dec sep sep); [|congruence]. simpl. now rewrite IH.
  - destruct (N.eq_dec c sep); [congruence|].
    pose proof (split_not_nil s) as Hn.
    destruct (split sep s) as [|p ps]; [congruence|]. exact IH.
Qed.

Lemma count_join (a : list jsstring) :
  a <> [] ->
  S (count_occ N.eq_dec (join sep a) sep)
  = length a + count_occ N.eq_dec (concat a) sep.
Proof.
  induction a as [|x a IH]; intro Hn; [congruence|].
  destruct a as [|y a].
  - simpl. now rewrite app_nil_r.
  - rewrite join_cons by discriminate.
    cbn [concat length]. rewrite !count_occ_app. cbn [count_occ].
    destruct (N.eq_dec sep sep); [|congruence].
    specialize (IH ltac:(discriminate)). cbn [concat length] in IH.
    rewrite count_occ_app in IH. lia.
Qed.

End SplitJoin.

Section LogcatArgs.

Import Services.

Lemma filter_arg_truthy (f : Filter) : truthy (filter_arg f) = true.
Proof. unfold filter_arg. now destruct (ftag f). Qed.

Lemma join_truthy (a : list jsstring) :
  a <> [] -> Forall (fun x => truthy x = true) a -> truthy (join SP a) = true.
Proof.
  destruct a as [|x a]; [congruence|]. intros _ Hf.
  inversion Hf as [|? ? Hx _]; subst.
  destruct a; simpl; [exact Hx|]. now destruct x.
Qed.

Lemma filter_string_truthy (filters : list Filter) :
  filters <> [] -> truthy (join SP (map filter_arg filters)) = true.
Proof.
  intro Hn. apply join_truthy.
  - now destruct filters.
  - apply Forall_forall. intros x Hx. apply in_map_iff in Hx.
    destruct Hx as (f & <- & _). apply filter_arg_truthy.
Qed.

End LogcatArgs.

(** X7: the arguments [startLogcat] gives to [adb] start with
    [-s <device> logcat -v threadtime -b main]; without filters nothing
    follows; when no tag and no level holds a space, one argument
    [tag:level] follows per filter, in order.  In every case the arguments
    that follow are the filter string cut at its spaces: none of them
    holds a space, joined by spaces they are the filters joined by spaces,
    and there are as many as filters and spaces in the tags and levels
    together, so a tag with a space is cut into several arguments. *)
Theorem logcat_args_per_filter (deviceId : jsstring) (filters : list Filter) :
  let args := Services.logcat_args deviceId filters in
  let specs := map Services.filter_arg filters in
  firstn 7 args = [js "-s"; deviceId; js "logcat"; js "-v"; js "threadtime";
                   js "-b"; js "main"] /\
  (filters = [] -> skipn 7 args = []) /\
  (Forall (fun f => ~ In SP (ftag f) /\ ~ In SP (flevel f)) filters ->
   skipn 7 args = specs) /\
  join SP (skipn 7 args) = join SP specs /\
  Forall (fun a => ~ In SP a) (skipn 7 args) /\
  length (skipn 7 args)
  = length filters + count_occ N.eq_dec (concat specs) SP.
Proof.
  cbv zeta. unfold Services.logcat_args.
  destruct filters as [|f filters].
  - simpl. repeat split; auto.
  - rewrite filter_string_truthy by discriminate.
    split; [reflexivity|]. split; [discriminate|].
    change (skipn 7 (?a ++ ?b)) with b. split; [|split; [|split]].
    + intro Hf. apply split_join; [discriminate|].
      apply Forall_forall. intros x Hx. apply in_map_iff in Hx.
      destruct Hx as (f' & <- & Hin).
      rewrite Forall_forall in Hf. destruct (Hf f' Hin) as [Ht Hl].
      unfold Services.filter_arg. intro H.
      apply in_app_or in H. destruct H as [H|H]; [now apply Ht|].
      simpl in H. destruct H as [H|H]; [discriminate H|now apply Hl].
    + apply join_split.
    + apply split_pieces.
    + rewrite split_length, count_join by discriminate.
      now rewrite length_map.
Qed.

Example logcat_args_tag_with_space :
  Services.logcat_args (js "emulator-5554")
    [{| ftag := js "My Tag"; flevel := js "I" |}]
  = [js "-s"; js "emulator-5554"; js "logcat"; js "-v"; js "threadtime";
     js "-b"; js "main"; js "My"; js "Tag:I"].
Proof. reflexivity. Qed.

Section Devices.

Import Services.

(** A text that [trim] leaves as it is: it starts and ends with a code
    unit that is not white space. *)
Lemma drop_space_all (pad rest : jsstring) :
  forallb space pad = true -> drop_space (pad ++ rest) = drop_space rest.
Proof.
  induction pad as [|c pad IH]; intro H; [reflexivity|].
  simpl in *. apply andb_prop in H. destruct H as [-> H]. auto.
Qed.

Lemma drop_space_head (c : N) (s : jsstring) :
  space c = false -> drop_space (c :: s) = c :: s.
Proof. intro H. simpl. now rewrite H. Qed.

Lemma trim_padded (c d : N) (body pad : jsstring) :
  space c = false -> space d = false -> forallb space pad = true ->
  trim (c :: body ++ d :: pad) = c :: body ++ [d].
Proof.
  intros Hc Hd Hp. unfold trim. rewrite drop_space_head by exact Hc.
  assert (E : rev (c :: body ++ d :: pad) = rev pad ++ d :: rev (c :: body)).
  { simpl. rewrite rev_app_distr. simpl. now rewrite <- !app_assoc. }
  rewrite E, drop_space_all.
  - rewrite drop_space_head by exact Hd.
    simpl. now rewrite rev_app_distr, rev_involutive.
  - rewrite forallb_forall in *. intros x Hx. apply Hp. now apply in_rev.
Qed.

Lemma space_TAB : space TAB = true.
Proof. reflexivity. Qed.

Lemma space_LF : space LF = true.
Proof. reflexivity. Qed.

Lemma not_space_not_In (x : N) (s : jsstring) :
  space x = true -> forallb (fun c => negb (space c)) s = true -> ~ In x s.
Proof.
  intros Hx H Hin. rewrite forallb_forall in H. specialize (H x Hin).
  now rewrite Hx in H.
Qed.

Lemma device_of_entry (e : jsstring * jsstring * jsstring) :
  entry_ok e -> device_of_line (entry_line e) = entry_device e.
Proof.
  destruct e as [[id status] pad].
  intros (Hid & Hsp & (body & d & -> & Hd) & Htab & _ & Hpad & _).
  unfold device_of_line, entry_line, entry_device.
  destruct id as [|c id]; [congruence|].
  assert (Hc : space c = false).
  { simpl in Hsp. apply andb_prop in Hsp. destruct Hsp as [Hc _].
    now apply negb_true_iff in Hc. }
  replace ((c :: id) ++ TAB :: (body ++ [d]) ++ pad)
    with (c :: (id ++ TAB :: body) ++ d :: pad)
    by (simpl; now rewrite <- !app_assoc).
  rewrite trim_padded by assumption.
  replace (c :: (id ++ TAB :: body) ++ [d])
    with ((c :: id) ++ TAB :: (body ++ [d]))
    by (simpl; now rewrite <- !app_assoc).
  rewrite split_app_sep
    by (apply not_space_not_In; [exact space_TAB|exact Hsp]).
  rewrite split_no_sep by exact Htab.
  reflexivity.
Qed.

Lemma entry_line_no_LF (e : jsstring * jsstring * jsstring) :
  entry_ok e -> ~ In LF (entry_line e).
Proof.
  destruct e as [[id status] pad].
  intros (_ & Hsp & _ & _ & Hs & _ & Hp) H. unfold entry_line in H.
  apply in_app_or in H. destruct H as [H|[H|H]].
  - revert H. apply not_space_not_In; [exact space_LF|exact Hsp].
  - discriminate H.
  - apply in_app_or in H. tauto.
Qed.

Lemma split_entries (entries : list (jsstring * jsstring * jsstring)) :
  Forall entry_ok entries ->
  split LF (concat (map (fun e => entry_line e ++ [LF]) entries))
  = map entry_line entries ++ [[]].
Proof.
  induction 1 as [|e entries He _ IH]; [reflexivity|].
  cbn [map concat]. rewrite <- app_assoc. cbn [app].
  rewrite split_app_sep by now apply entry_line_no_LF.
  now rewrite IH.
Qed.

Lemma map_some_entries (entries : list (jsstring * jsstring * jsstring)) :
  Forall entry_ok entries ->
  map_some device_of_line (map entry_line entries ++ [[]])
  = map_some entry_device entries.
Proof.
  induction 1 as [|e entries He _ IH]; [reflexivity|].
  cbn [map app map_some]. rewrite device_of_entry by exact He.
  now rewrite IH.
Qed.

End Devices.

Section DevicesMore.

Import Services.

Lemma not_In_by_eqb (x : N) (s : jsstring) :
  existsb (N.eqb x) s = false -> ~ In x s.
Proof.
  intros H Hin.
  assert (existsb (N.eqb x) s = true)
    by (apply existsb_exists; exists x; split; [exact Hin|apply N.eqb_refl]).
  congruence.
Qed.

Lemma slice_tail {A} (x : A) (l : list A) : slice_from 1 (x :: l) = l.
Proof.
  unfold slice_from. change (1 <? 0)%Z with false. cbv iota.
  replace (Z.to_nat (Z.min 1 (Z.of_nat (length (x :: l))))) with 1
    by (simpl length; lia).
  reflexivity.
Qed.

Lemma sample_entries_ok : Forall entry_ok sample_entries.
Proof.
  repeat constructor; try discriminate;
    try (apply not_In_by_eqb; reflexivity).
  - exists (js "devic"), 101%N. now split.
  - exists (js "unauthorize"), 100%N. now split.
  - exists (js "devic"), 101%N. now split.
Defined.

End DevicesMore.

(** X8: from the output of [adb devices], a header line followed by
    well-formed device lines, [getDevices] returns the ids of the lines
    whose status is [device], in the order of the lines; the header is
    never taken for a device and blanks that end a line (a carriage
    return) do not matter.  Without an adb path, or when the command
    fails, the list is empty. *)
Theorem getDevices_lists_ready_devices (adbPath header : jsstring)
        (entries : list (jsstring * jsstring * jsstring)) :
  truthy adbPath = true -> ~ In LF header ->
  Forall Services.entry_ok entries ->
  Services.getDevices adbPath
    (Some (Services.devices_output header entries))
  = map_some Services.entry_device entries /\
  Services.getDevices adbPath None = [] /\
  Services.getDevices [] (Some (Services.devices_output header entries)) = [].
Proof.
  intros Hp Hh He. unfold Services.getDevices. rewrite Hp.
  repeat split.
  unfold Services.parse_devices, Services.devices_output.
  rewrite split_app_sep by exact Hh.
  rewrite slice_tail, split_entries by exact He.
  now apply map_some_entries.
Qed.

Lemma getDevices_lists_ready_devices_witness :
  Services.getDevices (js "/usr/bin/adb")
    (Some (Services.devices_output (js "List of devices attached")
             sample_entries))
  = [{| Services.value := js "emulator-5554";
        Services.label := js "emulator-5554" |};
     {| Services.value := js "R58M"; Services.label := js "R58M" |}].
Proof.
  exact (proj1 (getDevices_lists_ready_devices (js "/usr/bin/adb")
                  (js "List of devices attached") sample_entries eq_refl
                  (not_In_by_eqb LF (js "List of devices attached") eq_refl)
                  sample_entries_ok)).
Defined.


(* ================================================================== *)
(** * Properties of the displayed rows, filters and columns *)

Section FilterList.

Import Display.

Lemma filter_index_Forall {A} (P : A -> Prop) (keep : nat -> bool)
      (l : list A) : forall i,
  Forall P l -> Forall P (filter_index keep i l).
Proof.
  induction l as [|x l IH]; intros i H; [constructor|].
  inversion H; subst. simpl. destruct (keep i); auto.
Qed.

Lemma filter_index_all {A} (k : nat) (l : list A) : forall i,
  k < i -> filter_index (fun j => negb (Nat.eqb j k)) i l = l.
Proof.
  induction l as [|x l IH]; intros i H; [reflexivity|]. simpl.
  destruct (Nat.eqb_spec i k); [lia|]. simpl. now rewrite IH by lia.
Qed.

Lemma filter_index_remove {A} (l : list A) : forall k i,
  filter_index (fun j => negb (Nat.eqb j (k + i))) k l
  = firstn i l ++ skipn (S i) l.
Proof.
  induction l as [|x l IH]; intros k i; [now destruct i|].
  simpl. destruct i as [|i].
  - rewrite Nat.add_0_r, Nat.eqb_refl. simpl.
    apply filter_index_all. lia.
  - destruct (Nat.eqb_spec k (k + S i)); [lia|]. simpl.
    replace (k + S i) with (S k + i) by lia. now rewrite IH.
Qed.

Lemma filter_step_ok (st st' : filter_state) :
  filter_step st st' ->
  Forall filter_ok (filters st) /\ In (flevel (newFilter st)) LogLevels_keys ->
  Forall filter_ok (filters st') /\ In (flevel (newFilter st')) LogLevels_keys.
Proof.
  intros [v s|v s Hv|s|i s] [Hf Hn]; simpl; auto.
  - unfold addFilter. destruct (ftag (newFilter s)) as [|c t] eqn:E; simpl.
    + auto.
    + split; [|now left]. apply Forall_app. split; [exact Hf|].
      constructor; [|constructor]. split; [rewrite E; discriminate|exact Hn].
  - split; [|exact Hn]. now apply filter_index_Forall.
Qed.

End FilterList.

(** X9: whatever the user does with the tag input, the level select and
    the add and remove buttons, every filter in the list has a tag that is
    not empty and a level that is a key of [LogLevels].  [addFilter] with
    an empty tag adds nothing and changes nothing; with a tag it appends
    the new filter at the end of the list and resets the inputs to an
    empty tag and level V. *)
Theorem filters_have_tag_and_level (st : Display.filter_state) :
  Display.filter_reachable st ->
  Forall Display.filter_ok (Display.filters st) /\
  In (flevel (Display.newFilter st)) Display.LogLevels_keys /\
  (ftag (Display.newFilter st) = [] -> Display.addFilter st = st) /\
  (ftag (Display.newFilter st) <> [] ->
   Display.addFilter st
   = {| Display.filters := Display.filters st ++ [Display.newFilter st];
        Display.newFilter := {| ftag := []; flevel := js "V" |} |}).
Proof.
  intro H.
  assert (I : Forall Display.filter_ok (Display.filters st) /\
              In (flevel (Display.newFilter st)) Display.LogLevels_keys).
  { induction H as [|st st' _ IH Hs].
    - split; [constructor|now left].
    - now apply filter_step_ok with st. }
  destruct I as [I1 I2]. split; [exact I1|]. split; [exact I2|].
  unfold Display.addFilter. split.
  - now intros ->.
  - intro Hne. now destruct (ftag (Display.newFilter st)).
Qed.

Lemma filters_have_tag_and_level_witness :
  Forall Display.filter_ok (Display.filters Display.one_filter) /\
  In (flevel (Display.newFilter Display.one_filter)) Display.LogLevels_keys /\
  Display.addFilter Display.one_filter = Display.one_filter.
Proof.
  destruct (filters_have_tag_and_level Display.one_filter
           (Display.fr_step _ _
              (Display.fr_step _ _
                 (Display.fr_step _ _ Display.fr_init
                    (Display.fs_tag (js "MyTag") _))
                 (Display.fs_level (js "W") _
                    (or_intror (or_intror (or_intror (or_introl eq_refl))))))
              (Display.fs_add _))) as (H1 & H2 & H3 & _).
  split; [exact H1|]. split; [exact H2|]. apply H3. reflexivity.
Defined.

(** X10: [removeFilter(index)] takes out exactly the filter at [index] and
    keeps the others in order; an index past the end changes nothing; and
    removing the last index after an [addFilter] that added gives the
    list back. *)
Theorem removeFilter_removes_one (index : nat) (st : Display.filter_state) :
  Display.filters (Display.removeFilter index st)
    = firstn index (Display.filters st)
      ++ skipn (S index) (Display.filters st) /\
  (length (Display.filters st) <= index ->
   Display.removeFilter index st = st) /\
  (truthy (ftag (Display.newFilter st)) = true ->
   Display.filters
     (Display.removeFilter (length (Display.filters st))
        (Display.addFilter st))
   = Display.filters st).
Proof.
  assert (E : forall i s,
             Display.filters (Display.removeFilter i s)
             = firstn i (Display.filters s) ++ skipn (S i) (Display.filters s)).
  { intros i s. unfold Display.removeFilter. simpl.
    exact (filter_index_remove (Display.filters s) 0 i). }
  split; [apply E|]. split.
  - intro Hle. destruct st as [fs nf]. unfold Display.removeFilter.
    specialize (E index {| Display.filters := fs; Display.newFilter := nf |}).
    unfold Display.removeFilter in *. cbn [Display.filters length] in *.
    f_equal. rewrite E, firstn_all2, skipn_all2 by lia. apply app_nil_r.
  - intro Ht. rewrite E. unfold Display.addFilter. rewrite Ht.
    cbn [Display.filters].
    rewrite firstn_app, Nat.sub_diag, firstn_all.
    rewrite skipn_all2 by (rewrite length_app; simpl; lia).
    cbn [firstn]. now rewrite !app_nil_r.
Qed.

Section Rows.

Import Display.

Lemma filter_matches_iff (log : LogRecord) (f : Filter) :
  In (level log) parsed_levels -> filter_ok f ->
  (filter_matches log f = true <->
   level log <> js "A" /\
   includes (tag log) (ftag f) = true /\
   (indexOf LogLevels_keys (level log)
    <= indexOf LogLevels_keys (flevel f))%Z).
Proof.
  intros Hl [Ht Hf]. unfold filter_matches.
  destruct (ftag f) as [|c t] eqn:E; [congruence|].
  cbn [truthy negb orb].
  generalize (includes (tag log) (c :: t)). intro b.
  unfold parsed_levels, LogLevels_keys in Hl, Hf.
  cbn [In] in Hl, Hf.
  repeat (destruct Hl as [Hl|Hl]; try contradiction);
    repeat (destruct Hf as [Hf|Hf]; try contradiction);
    rewrite <- Hl, <- Hf; destruct b; vm_compute;
    split; intuition (try discriminate; try congruence).
Qed.

End Rows.

(** X11: with the search box empty and front-end filtering on, a parsed
    record is displayed under a non-empty list of filters exactly when its
    level is not [A] and some filter has a tag contained in the record's
    tag and a level at or after the record's level in the order
    V, D, I, W, E, F: a filter lets through the records of its own level
    and of the levels before it, whatever [toLowerCase] does. *)
Theorem frontend_filter_keeps_lower_levels
        (toLowerCase : jsstring -> jsstring)
        (filters : list Filter) (log : LogRecord) :
  In (level log) Display.parsed_levels ->
  Forall Display.filter_ok filters -> filters <> [] ->
  (Display.shown toLowerCase [] true filters log = true <->
   level log <> js "A" /\
   exists f, In f filters /\
     includes (tag log) (ftag f) = true /\
     (indexOf Display.LogLevels_keys (level log)
      <= indexOf Display.LogLevels_keys (flevel f))%Z).
Proof.
  intros Hl Hf Hn. unfold Display.shown. cbn [truthy andb].
  destruct filters as [|f0 filters]; [congruence|].
  change (0 <? length (f0 :: filters)) with true. cbv iota.
  rewrite existsb_exists. rewrite Forall_forall in Hf. split.
  - intros (f & Hin & Hm).
    apply filter_matches_iff in Hm; [|exact Hl|now apply Hf].
    destruct Hm as (Ha & Hm). eauto.
  - intros (Ha & f & Hin & Hm). exists f. split; [exact Hin|].
    apply filter_matches_iff; auto.
Qed.

(** The sample record, of level I, under a filter of level W on its tag. *)
Lemma frontend_filter_keeps_lower_levels_witness :
  Display.shown (fun s => s) [] true
    [{| ftag := js "MyTag"; flevel := js "W" |}] sample_record = true.
Proof.
  apply (frontend_filter_keeps_lower_levels (fun s => s)
           [{| ftag := js "MyTag"; flevel := js "W" |}] sample_record).
  - right. right. left. reflexivity.
  - constructor; [|constructor]. split; [discriminate|].
    right. right. right. left. reflexivity.
  - discriminate.
  - split; [discriminate|].
    exists {| ftag := js "MyTag"; flevel := js "W" |}.
    split; [now left|]. split; [reflexivity|]. vm_compute. discriminate.
Defined.

Section Columns.

Import Display.

Lemma toggle_message (k : column) (v : visibility) :
  toggleColumnVisibility k v Message = v Message.
Proof. now destruct k. Qed.

Lemma toggle_other (k c : column) (v : visibility) :
  c <> Message ->
  toggleColumnVisibility k v c
  = xorb (v c) (if column_eq_dec k c then true else false).
Proof.
  intro Hc. destruct (column_eq_dec k c) as [->|Hk].
  - destruct c; try congruence; simpl; now destruct (v _).
  - destruct k, c; try congruence; simpl; now destruct (v _).
Qed.

Lemma toggle_all_spec (keys : list column) : forall v c,
  toggle_all keys v Message = v Message /\
  (c <> Message ->
   toggle_all keys v c
   = xorb (v c) (Nat.odd (count_occ column_eq_dec keys c))).
Proof.
  induction keys as [|k keys IH]; intros v c.
  - simpl. split; [reflexivity|]. intros _. now destruct (v c).
  - unfold toggle_all in *. cbn [fold_left].
    destruct (IH (toggleColumnVisibility k v) c) as [H1 H2].
    split; [now rewrite H1, toggle_message|].
    intro Hc. rewrite (H2 Hc), (toggle_other k c v Hc).
    cbn [count_occ]. destruct (column_eq_dec k c) as [_|_].
    + rewrite Nat.odd_succ, <- Nat.negb_odd.
      now destruct (v c), (Nat.odd _).
    + now destruct (v c), (Nat.odd _).
Qed.

End Columns.

(** X12: after any sequence of column toggles the message column is still
    visible, so the table never loses all its columns; every other column
    is visible exactly when its initial setting has been flipped an odd
    number of times. *)
Theorem message_column_stays_visible (keys : list Display.column)
        (c : Display.column) :
  let v := Display.toggle_all keys Display.initial_visibility in
  v Display.Message = true /\
  In Display.Message (Display.visibleColumns v) /\
  (c <> Display.Message ->
   v c = xorb (Display.initial_visibility c)
              (Nat.odd (count_occ Display.column_eq_dec keys c))).
Proof.
  cbv zeta.
  destruct (toggle_all_spec keys Display.initial_visibility c) as [H1 H2].
  split; [exact H1|]. split; [|exact H2].
  unfold Display.visibleColumns. apply filter_In. split; [|exact H1].
  simpl. tauto.
Qed.


(** ** The row text parses back *)

Section MatcherRuns.

Context {R : Type}.

Lemma times_run (p : charclass) (w : jsstring) :
  forall (n : nat) (rest : jsstring) (k : jsstring -> option R),
    length w = n -> forallb p w = true ->
    times n p (w ++ rest) k = k rest.
Proof.
  induction w as [|c w IH]; intros n rest k Hl Hp; simpl in Hl; subst n.
  - reflexivity.
  - simpl in *. apply andb_prop in Hp. destruct Hp as [-> Hp]. now apply IH.
Qed.

Lemma plus_greedy_stops (p : charclass) (rest : jsstring)
      (k : jsstring -> option R) :
  stops p rest -> plus_greedy p rest k = None.
Proof. destruct rest as [|c rest]; simpl; [reflexivity|now intros ->]. Qed.

(** A greedy [+] takes the whole run when the rest of the pattern then
    matches. *)
Lemma plus_greedy_run (p : charclass) (w : jsstring) :
  forall (rest : jsstring) (k : jsstring -> option R) (res : R),
    w <> [] -> forallb p w = true -> stops p rest ->
    k rest = Some res ->
    plus_greedy p (w ++ rest) k = Some res.
Proof.
  induction w as [|c w IH]; intros rest k res Hn Hp Hs Hk; [congruence|].
  simpl in *. apply andb_prop in Hp. destruct Hp as [-> Hp].
  destruct w as [|c' w].
  - simpl. now rewrite plus_greedy_stops.
  - rewrite (IH rest k res); auto. discriminate.
Qed.

(** A lazy [+] followed by a pattern that cannot start inside the run
    takes the whole run. *)
Lemma plus_lazy_run (p : charclass) (w : jsstring) :
  forall (rest : jsstring) (k : jsstring -> option R) (res : R),
    w <> [] -> forallb p w = true ->
    (forall c s, p c = true -> k (c :: s) = None) ->
    k rest = Some res ->
    plus_lazy p (w ++ rest) k = Some res.
Proof.
  induction w as [|c w IH]; intros rest k res Hn Hp Hk0 Hk; [congruence|].
  simpl in *. apply andb_prop in Hp. destruct Hp as [-> Hp].
  destruct w as [|c' w].
  - simpl. now rewrite Hk.
  - simpl in Hp. apply andb_prop in Hp. destruct Hp as [Hc' Hp].
    cbn [app]. rewrite (Hk0 c' (w ++ rest) Hc').
    apply (IH rest k res); auto; [discriminate|].
    simpl. now rewrite Hc', Hp.
Qed.

End MatcherRuns.

Section RowText.

Lemma digit_not_space (c : N) : digit c = true -> space c = false.
Proof.
  unfold digit, in_range. intro H. apply andb_prop in H.
  destruct H as [H1 H2]. apply N.leb_le in H1, H2.
  unfold space, in_range.
  repeat match goal with
         | |- context [N.eqb c ?k] =>
             replace (N.eqb c k) with false
               by (symmetry; apply N.eqb_neq; lia)
         end.
  replace (N.leb c 13) with false by (symmetry; apply N.leb_gt; lia).
  replace (N.leb 8192 c) with false by (symmetry; apply N.leb_gt; lia).
  now rewrite !andb_false_r.
Qed.

Lemma level_letter (lvl : N) :
  In lvl (js "VDIWEAF") ->
  space lvl = false /\ one_of "VDIWEAF" lvl = true.
Proof.
  simpl. intro H.
  repeat (destruct H as [H|H]; [subst lvl; now split|]). contradiction.
Qed.

Lemma stops_head (p : charclass) (c : N) (s : jsstring) :
  p c = false -> stops p (c :: s).
Proof. now intro H. Qed.

Lemma firstn_prefix {A} (s w s' : list A) :
  s = w ++ s' -> firstn (length s - length s') s = w.
Proof. intros ->. apply firstn_consumed. Qed.

End RowText.

Section RowText2.

Context {R : Type}.

Lemma plus_greedy_one (p : charclass) (c : N) (rest : jsstring)
      (k : jsstring -> option R) (res : R) :
  p c = true -> stops p rest -> k rest = Some res ->
  plus_greedy p (c :: rest) k = Some res.
Proof.
  intros Hc Hs Hk. simpl. rewrite Hc. now rewrite plus_greedy_stops.
Qed.

End RowText2.

Lemma stops_run (p q : charclass) (w rest : jsstring) :
  w <> [] -> forallb q w = true -> (forall c, q c = true -> p c = false) ->
  stops p (w ++ rest).
Proof.
  destruct w as [|c w]; [congruence|]. intros _ H Hq. simpl in *.
  apply andb_prop in H. destruct H as [H _]. auto.
Qed.

Lemma none_of_colon (c : N) : none_of ":" c = true -> lit ":" c = false.
Proof.
  intro H. unfold none_of, one_of in H. apply negb_true_iff in H.
  cbn [js list_ascii_of_string map existsb] in H.
  apply orb_false_elim in H. destruct H as [H _].
  unfold lit. change (N_of_ascii ":") with 58%N.
  change (N_of_ascii ":") with 58%N in H.
  now rewrite N.eqb_sym.
Qed.

Lemma firstn_whole {A} (s : list A) : firstn (length s - length (@nil A)) s = s.
Proof. simpl. rewrite Nat.sub_0_r. apply firstn_all. Qed.

Lemma firstn_one {A} (c : A) (s : list A) :
  firstn (length (c :: s) - length s) (c :: s) = [c].
Proof. exact (firstn_consumed [c] s). Qed.

Lemma exec_logText (r : LogRecord) :
  Display.canonical r ->
  exec logRegex (Display.logText r)
  = Some [Display.logText r; timestamp r; pid r; tid r; level r; tag r;
          message r].
Proof.
  intros ((MM & DD & sp & hh & mm & ss & mmm & Hts & HMM & HDD & Hsp & Hhh
           & Hmm & Hss & Hmmm)
          & (Hpn & Hpd) & (Htn & Htd) & (lvl & Hlv & Hin)
          & (ct & tt & Htag & Hct & Htc) & (cm & tm & Hmsg & Hcm & Hmd)).
  destruct (level_letter lvl Hin) as [Hls Hlo].
  destruct HMM as [LMM PMM], HDD as [LDD PDD], Hhh as [Lhh Phh],
    Hmm as [Lmm Pmm], Hss as [Lss Pss], Hmmm as [Lmmm Pmmm].
  remember (Display.logText r) as line eqn:Eline.
  set (tail := 32%N :: pid r ++ 32%N :: tid r ++ 32%N :: lvl :: 32%N
               :: tag r ++ 58%N :: 32%N :: message r).
  assert (Hline : line = MM ++ 45%N :: DD ++ sp :: hh ++ 58%N :: mm
                  ++ 58%N :: ss ++ 46%N :: mmm ++ tail).
  { subst line tail. unfold Display.logText. rewrite Hts, Hlv.
    now rewrite <- !app_assoc. }
  assert (Hpre : line = timestamp r ++ tail).
  { rewrite Hline, Hts. now rewrite <- !app_assoc. }
  assert (M : match_at logRegex line = Some [line; timestamp r; pid r; tid r;
                                             level r; tag r; message r]).
  { unfold match_at, logRegex. cbn [run].
    rewrite Hline at 1.
    rewrite (times_run digit MM 2) by assumption.
    change (lit "-" 45%N) with true. cbv iota.
    rewrite (times_run digit DD 2) by assumption.
    rewrite Hsp.
    rewrite (times_run digit hh 2) by assumption.
    change (lit ":" 58%N) with true. cbv iota.
    rewrite (times_run digit mm 2) by assumption.
    change (lit ":" 58%N) with true. cbv iota.
    rewrite (times_run digit ss 2) by assumption.
    change (lit "." 46%N) with true. cbv iota.
    rewrite (times_run digit mmm 3) by assumption.
    subst tail.
    apply plus_greedy_one; [reflexivity| |].
    { eapply stops_run; eauto using digit_not_space. }
    apply plus_greedy_run; [assumption|assumption|reflexivity|].
    apply plus_greedy_one; [reflexivity| |].
    { eapply stops_run; eauto using digit_not_space. }
    apply plus_greedy_run; [assumption|assumption|reflexivity|].
    apply plus_greedy_one; [reflexivity|exact Hls|].
    rewrite Hlo.
    apply plus_greedy_one; [reflexivity|rewrite Htag; exact Hct|].
    apply plus_lazy_run.
    - rewrite Htag. discriminate.
    - exact Htc.
    - intros c s Hc. now rewrite (none_of_colon c Hc).
    - change (lit ":" 58%N) with true. cbv iota.
      apply plus_greedy_one; [reflexivity|rewrite Hmsg; exact Hcm|].
      rewrite <- (app_nil_r (message r)) at 1.
      apply plus_greedy_run; [rewrite Hmsg; discriminate|exact Hmd|exact I|].
      rewrite !firstn_consumed, firstn_one, !firstn_whole.
      rewrite (firstn_prefix line (timestamp r) _ Hpre), Hlv.
      reflexivity. }
  rewrite Hline in *. destruct MM as [|a MM]; [discriminate LMM|].
  cbn [app exec] in *. now rewrite M.
Qed.

(** X13: the text [handleRowClick] copies for a row parses back to the
    fields of the row, when they are as the grammar wants them and neither
    the tag nor the message starts with white space. *)
Theorem copied_row_parses_back (r : LogRecord) (g : random) :
  Display.canonical r ->
  exists r' g',
    parseLogLine (Display.logText r) g = (Some r', g') /\
    timestamp r' = timestamp r /\ pid r' = pid r /\ tid r' = tid r /\
    level r' = level r /\ tag r' = tag r /\ message r' = message r.
Proof.
  intro H. unfold parseLogLine. rewrite (exec_logText r H).
  cbn [nth Math_random]. do 2 eexists. split; [reflexivity|].
  repeat split.
Qed.

Lemma sample_record_canonical : Display.canonical sample_record.
Proof.
  unfold Display.canonical, digits. simpl. repeat split; try discriminate.
  - exists (js "10"), (js "01"), 32%N, (js "12"), (js "00"), (js "00"),
      (js "000"). repeat split.
  - exists 73%N. split; [reflexivity|]. simpl. tauto.
  - exists 77%N, (js "yTag"). repeat split.
  - exists 104%N, (js "ello"). repeat split.
Defined.

Lemma copied_row_parses_back_witness :
  exists r' g',
    parseLogLine (Display.logText sample_record) (const_random "0.5")
      = (Some r', g') /\
    timestamp r' = timestamp sample_record /\ pid r' = pid sample_record /\
    tid r' = tid sample_record /\ level r' = level sample_record /\
    tag r' = tag sample_record /\ message r' = message sample_record.
Proof.
  exact (copied_row_parses_back sample_record (const_random "0.5")
           sample_record_canonical).
Defined.


(* ================================================================== *)
(** * The pipeline from the chunks to the view *)

Section Lines.

Import Worker Pipeline.

Lemma parsed_from_incl (l1 l2 : list jsstring) (r : LogRecord) :
  incl l1 l2 -> parsed_from l1 r -> parsed_from l2 r.
Proof.
  intros Hi (line & g0 & g1 & Hin & Hp). exists line, g0, g1. auto.
Qed.

Lemma Forall_parsed_from_incl (l1 l2 : list jsstring)
      (rs : list LogRecord) :
  incl l1 l2 -> Forall (parsed_from l1) rs -> Forall (parsed_from l2) rs.
Proof.
  intros Hi H. eapply Forall_impl; [|exact H].
  intro r. now apply parsed_from_incl.
Qed.

Lemma map_filter_parsed_from (lines : list jsstring) : forall g,
  Forall (parsed_from lines) (fst (map_filter parseLogLine lines g)).
Proof.
  induction lines as [|l lines IH]; intro g; [constructor|].
  cbn [map_filter].
  destruct (parseLogLine l g) as [[r|] g1] eqn:E;
    specialize (IH g1);
    destruct (map_filter parseLogLine lines g1) as [rs g2]; cbn [fst] in *.
  - constructor.
    + exists l, g, g1. split; [now left|exact E].
    + apply Forall_parsed_from_incl with lines; [|exact IH].
      intros x Hx. now right.
  - apply Forall_parsed_from_incl with lines; [|exact IH].
    intros x Hx. now right.
Qed.

Lemma ingest_all_app (a b : list jsstring) : forall x,
  ingest_all (a ++ b) x
  = let (l1, x1) := ingest_all a x in
    let (l2, x2) := ingest_all b x1 in (l1 ++ l2, x2).
Proof.
  induction a as [|c a IH]; intro x; cbn [app ingest_all].
  - now destruct (ingest_all b x).
  - destruct (reassemble x c) as [l0 x0]. rewrite IH.
    destruct (ingest_all a x0) as [l1 x1].
    destruct (ingest_all b x1) as [l2 x2]. now rewrite app_assoc.
Qed.

(** The lines of the chunks so far and of one chunk more. *)
Lemma reassemble_snoc (cur : list jsstring) (data : jsstring) :
  reassemble [] (concat (cur ++ [data]))
  = (fst (reassemble [] (concat cur))
       ++ fst (reassemble (snd (reassemble [] (concat cur))) data),
     snd (reassemble (snd (reassemble [] (concat cur))) data)).
Proof.
  rewrite <- !ingest_all_concat, ingest_all_app.
  destruct (ingest_all cur []) as [l1 x1]. cbn [ingest_all fst snd].
  destruct (reassemble x1 data) as [l2 x2]. now rewrite app_nil_r.
Qed.

Lemma process_delivered (data : jsstring) (t : Z) (st : state) :
  delivered (onmessage (Process data) t st)
  = delivered st
    ++ fst (map_filter parseLogLine (fst (reassemble (buffer st) data))
                       (rng st)) /\
  buffer (onmessage (Process data) t st)
  = snd (reassemble (buffer st) data).
Proof.
  unfold onmessage.
  destruct (reassemble (buffer st) data) as [lines rest].
  cbn [parsedLogsBuffer timeoutId timers posted rng buffer fst snd].
  destruct lines as [|l lines]; [simpl; now rewrite app_nil_r|].
  change (0 <? length (l :: lines)) with true. cbv iota.
  destruct (map_filter parseLogLine (l :: lines) (rng st)) as [newly g'].
  match goal with |- context [submit newly t ?s] =>
    destruct (submit_delivered newly t s) as (-> & -> & _) end.
  auto.
Qed.

Lemma run_events_lines (evs : list (Z * event)) : forall st cur L,
  buffer st = snd (reassemble [] (concat cur)) ->
  Forall (parsed_from (L ++ fst (reassemble [] (concat cur)))) (delivered st) ->
  Forall (parsed_from (L ++ lines_seen cur evs))
         (delivered (run_events evs st)) /\
  buffer (run_events evs st)
  = snd (reassemble [] (concat (open_chunks cur evs))).
Proof.
  induction evs as [|[t e] evs IH]; intros st cur L Hb Hd.
  - simpl. auto.
  - destruct e as [[data| |]|h|];
      cbn [lines_seen open_chunks run_events handle_event].
    + destruct (process_delivered data t st) as (D & B).
      apply IH.
      * rewrite B, Hb, reassemble_snoc. reflexivity.
      * rewrite D, reassemble_snoc. cbn [fst]. rewrite <- Hb.
        apply Forall_app. split.
        -- eapply Forall_parsed_from_incl; [|exact Hd].
           intros x Hx. apply in_app_or in Hx.
           apply in_or_app. destruct Hx as [Hx|Hx]; [now left|].
           right. apply in_or_app. now left.
        -- eapply Forall_parsed_from_incl; [|apply map_filter_parsed_from].
           intros x Hx. apply in_or_app. right. apply in_or_app. now right.
    + rewrite app_assoc. apply IH; [reflexivity|].
      assert (E : delivered (onmessage Clear t st) = concat (posted st))
        by (unfold delivered; simpl; apply app_nil_r).
      rewrite E. unfold delivered in Hd.
      apply Forall_app in Hd. destruct Hd as [Hd _].
      eapply Forall_parsed_from_incl; [|exact Hd].
      intros x Hx. apply in_or_app. now left.
    + now apply IH.
    + destruct (Timers.due h _) as [d|]; [|now apply IH].
      destruct (d <=? t)%Z; [|now apply IH].
      unfold ontimeout.
      match goal with |- context [sendBatch ?s] =>
        destruct (sendBatch_delivered s) as (D1 & B1 & _) end.
      apply IH; [now rewrite B1|now rewrite D1].
    + unfold onclose.
      destruct (sendBatch_delivered st) as (D1 & B1 & _).
      apply IH; [now rewrite B1|now rewrite D1].
Qed.

Lemma sendBatch_idem (st : state) : sendBatch (sendBatch st) = sendBatch st.
Proof.
  destruct st as [b [|r rs] [h|] tm po g]; reflexivity.
Qed.

End Lines.

Lemma lines_seen_segments (evs : list (Z * Worker.event)) : forall cur,
  exists lss,
    Pipeline.lines_seen cur evs = concat lss /\
    Forall2 Pipeline.complete_lines (Pipeline.segments cur evs) lss.
Proof.
  assert (C : forall cur,
             Pipeline.complete_lines (concat cur)
               (fst (Worker.reassemble [] (concat cur)))).
  { intro cur. pose proof (reassemble_spec [] (concat cur)) as S.
    destruct (Worker.reassemble [] (concat cur)) as [ls rest].
    destruct S as (S1 & S2 & S3). exists rest. cbn [fst].
    split; [now rewrite S1|split; assumption]. }
  induction evs as [|[t e] evs IH]; intro cur.
  - exists [fst (Worker.reassemble [] (concat cur))].
    cbn [Pipeline.lines_seen Pipeline.segments concat].
    split; [now rewrite app_nil_r|]. constructor; [apply C|constructor].
  - destruct e as [[data| |]|h|];
      cbn [Pipeline.lines_seen Pipeline.segments]; auto.
    destruct (IH []) as (lss & E & F).
    exists (fst (Worker.reassemble [] (concat cur)) :: lss).
    cbn [concat]. split; [now rewrite E|]. constructor; [apply C|exact F].
Qed.

(** X14: over any run of the worker, clears included, every record of
    every posted batch, like every pending record, is the record
    [parseLogLine] makes of a complete line the worker has seen.  The
    lines seen are the complete lines of the input cut at its clears:
    each piece of input is its lines, each without line feed and followed
    by one, then an end without line feed; the end of the last piece is
    the partial-line buffer, the ends of the others are what the clears
    threw away.  So no record is built from a partial line, from the text
    a clear threw away, or across two lines. *)
Theorem worker_records_come_from_lines (g : random)
        (evs : list (Z * Worker.event)) :
  let st := Worker.run_events evs (Worker.init g) in
  (forall r,
     In r (concat (Worker.posted st) ++ Worker.parsedLogsBuffer st) ->
     Pipeline.parsed_from (Pipeline.lines_seen [] evs) r) /\
  Worker.buffer st
  = snd (Worker.reassemble [] (concat (Pipeline.open_chunks [] evs))) /\
  no_LF (Worker.buffer st) /\
  Forall no_LF (Pipeline.lines_seen [] evs) /\
  (exists lss,
     Pipeline.lines_seen [] evs = concat lss /\
     Forall2 Pipeline.complete_lines (Pipeline.segments [] evs) lss) /\
  (exists ls,
     concat (Pipeline.open_chunks [] evs) = unlines ls ++ Worker.buffer st /\
     Forall no_LF ls).
Proof.
  cbv zeta.
  destruct (run_events_lines evs (Worker.init g) [] []) as (H & B);
    [reflexivity|constructor|].
  split; [|split; [exact B|split; [|split; [|split]]]].
  - simpl in H. rewrite Forall_forall in H. exact H.
  - rewrite B. clear H B.
    pose proof (reassemble_spec [] (concat (Pipeline.open_chunks [] evs))) as S.
    destruct (Worker.reassemble [] (concat (Pipeline.open_chunks [] evs)))
      as [ls rest].
    now destruct S as (_ & _ & S).
  - destruct (lines_seen_segments evs []) as (lss & E & F).
    rewrite E. clear E H B. induction F as [|seg ls segs lss C F IH].
    + constructor.
    + cbn [concat]. apply Forall_app. split; [|exact IH].
      now destruct C as (rest & _ & C & _).
  - apply lines_seen_segments.
  - rewrite B. clear H B.
    pose proof (reassemble_spec [] (concat (Pipeline.open_chunks [] evs))) as S.
    destruct (Worker.reassemble [] (concat (Pipeline.open_chunks [] evs)))
      as [ls rest].
    destruct S as (S1 & S2 & _). exists ls. cbn [snd].
    split; [now rewrite S1|exact S2].
Qed.

(** Across a clear: the second line of [cleared_run] is cut by the clear,
    and what follows the clear alone is no log line. *)
Example cleared_run_lines :
  Pipeline.lines_seen [] Pipeline.cleared_run
    = [sample_line; js "23 456 I MyTag: hello"] /\
  concat (Worker.posted
            (Worker.run_events Pipeline.cleared_run
               (Worker.init (const_random "0.5"))))
  ++ Worker.parsedLogsBuffer
       (Worker.run_events Pipeline.cleared_run
          (Worker.init (const_random "0.5")))
  = [].
Proof. split; vm_compute; reflexivity. Qed.

(** X15: flushing and clearing twice is flushing and clearing once:
    [sendBatch] after [sendBatch] posts nothing more, and a second
    ['clear'] message or a second reset of the viewer changes nothing. *)
Theorem flush_and_clear_are_idempotent (st : Worker.state)
        (v : Viewer.state) (t t' : Z) (b : bool) :
  Worker.sendBatch (Worker.sendBatch st) = Worker.sendBatch st /\
  Worker.onmessage Worker.Clear t' (Worker.onmessage Worker.Clear t st)
    = Worker.onmessage Worker.Clear t st /\
  Viewer.reset b (Viewer.reset b v) = Viewer.reset b v.
Proof.
  split; [apply sendBatch_idem|]. split.
  - destruct st as [bf p [h|] tm po g]; reflexivity.
  - destruct v as [lb [h|] lg tm], b; reflexivity.
Qed.


(** X16: the two halves together.  When the batches the worker posted over
    a run without clear reach the viewer in order, no reset happens, and
    both sides have drained (nothing pending in the worker, nothing staged
    in the viewer), the view is the last 1000 of the records of all the
    complete lines of the input, in the order of the lines. *)
Theorem view_shows_last_parsed_records (g : random)
        (wevs : list (Z * Worker.event))
        (vevs : list (Z * Pipeline.viewer_event)) :
  Pipeline.no_clear wevs = true -> Pipeline.no_reset vevs = true ->
  let w := Worker.run_events wevs (Worker.init g) in
  let v := Pipeline.viewer_run vevs Viewer.init in
  Pipeline.viewer_payloads vevs = Worker.posted w ->
  Worker.parsedLogsBuffer w = [] -> Viewer.logBuffer v = [] ->
  Viewer.logs v
  = lastn 1000
      (fst (map_filter parseLogLine
              (fst (Worker.reassemble []
                      (concat (Pipeline.worker_chunks wevs)))) g)).
Proof.
  intros Hc Hn. cbv zeta. intros Hp Hw Hv.
  destruct (run_events_delivered wevs (Worker.init g) Hc) as (D & _ & _).
  cbv zeta in D. simpl Worker.buffer in D. simpl Worker.rng in D.
  rewrite ingest_all_concat in D. unfold Pipeline.delivered in D.
  rewrite Hw, app_nil_r in D. simpl in D.
  destruct (viewer_run_accounts vevs Viewer.init [] Hn)
    as (merged & Hl & Hm); [exists []; auto|].
  rewrite Hv, app_nil_r in Hm. simpl in Hm.
  now rewrite Hl, Hm, Hp, D.
Qed.

Lemma view_shows_last_parsed_records_witness :
  Viewer.logs (Pipeline.viewer_run Pipeline.sample_arrival Viewer.init)
  = lastn 1000
      (fst (map_filter parseLogLine
              (fst (Worker.reassemble []
                      (concat (Pipeline.worker_chunks Pipeline.sample_run))))
              (const_random "0.5"))).
Proof.
  exact (view_shows_last_parsed_records (const_random "0.5")
           Pipeline.sample_run Pipeline.sample_arrival
           eq_refl eq_refl eq_refl eq_refl eq_refl).
Defined.
